(** * Exp_diff: the differential-expression explorer [app/app_diffexpr.py]

    A shallow embedding of the loadable core of the Streamlit application
    (table loader, contrast detector, gene-column resolver, per-contrast
    table builder, significance classifier and the DEGs filter), and the
    properties its specification states about them.

    Conventions of the embedding.
    - A Python [str] is a [string], a sequence of characters with code
      points below 256.  What the source compares (the four suffixes, the
      file extensions, [PRJNA], the underscore, the line feed) is ASCII:
      on such characters [re.IGNORECASE] and [str.lower()] identify [A-Z]
      with [a-z] and nothing else, and [\d] is [0-9].
    - A NumPy [float64] is a primitive [float] (IEEE 754 binary64).
    - A Python [dict] whose iteration order matters is an association list
      in insertion order.
    - A function that may raise returns a sum: [inl] carries the exception,
      [inr] the value. *)

From Stdlib Require Import Floats ZArith Lia Bool List Ascii String Permutation.
Import ListNotations.

Set Warnings "-inexact-float".

(* ================================================================== *)
(** * Python strings and the regular expressions of the source *)
(* ================================================================== *)

Module Texto.

Local Open Scope string_scope.

(** The line feed and the underscore. *)
Definition LF : ascii := "010"%char.
Definition guion_bajo : ascii := "_"%char.

(** [str.lower()] on one character: [A-Z] moves to [a-z]. *)
Definition minuscula (c : ascii) : ascii :=
  let n := nat_of_ascii c in
  if (65 <=? n)%nat && (n <=? 90)%nat then ascii_of_nat (n + 32) else c.

(** [s.lower()]. *)
Fixpoint lower (s : string) : string :=
  match s with
  | EmptyString => EmptyString
  | String c s' => String (minuscula c) (lower s')
  end.

(** [s.endswith(suf)]. *)
Definition endswith (s suf : string) : bool :=
  (String.length suf <=? String.length s)%nat &&
  (substring (String.length s - String.length suf) (String.length suf) s =? suf).

(** A Python value used as a condition: [None] and the empty string are
    false, any other string is true. *)
Definition truthy (o : option string) : bool :=
  match o with
  | Some s => negb (s =? "")
  | None => false
  end.

(** ** Regular expressions, as backtracking matchers

    A matcher consumes the head of a string and hands what follows to its
    continuation; it fails when the continuation fails on every way of
    consuming. *)

(** A literal, compared character by character; [Some rest] on success. *)
Fixpoint literal (lit s : string) : option string :=
  match lit, s with
  | EmptyString, _ => Some s
  | String a lit', String b s' =>
      if (a =? b)%char then literal lit' s' else None
  | String _ _, EmptyString => None
  end.

(** A literal under [re.IGNORECASE]. *)
Fixpoint literal_nocase (lit s : string) : option string :=
  match lit, s with
  | EmptyString, _ => Some s
  | String a lit', String b s' =>
      if (minuscula a =? minuscula b)%char then literal_nocase lit' s' else None
  | String _ _, EmptyString => None
  end.

(** [$] without [re.MULTILINE]: the end of the string, or the position just
    before a line feed that ends the string. *)
Definition fin (s : string) : bool :=
  (s =? "") || (s =? String LF "").

(** [(.+?)k], the lazy group: [grupo] is what the group has consumed so
    far; one more character is consumed (never a line feed, since [.]
    excludes it), the continuation [k] is tried on the rest, and only when
    it fails the group grows.  The result is the text of the group. *)
Fixpoint grupo_perezoso (k : string -> bool) (grupo s : string) : option string :=
  match s with
  | EmptyString => None
  | String c s' =>
      if (c =? LF)%char then None
      else
        let grupo' := grupo ++ String c "" in
        if k s' then Some grupo' else grupo_perezoso k grupo' s'
  end.

(** [X+k], the greedy repetition of a character class: at least one
    character of the class is consumed, as many as possible first, giving
    one back at a time while the continuation [k] fails. *)
Fixpoint mas_codicioso (clase : ascii -> bool) (k : string -> option string)
  (s : string) : option string :=
  match s with
  | EmptyString => None
  | String c s' =>
      if clase c then
        match mas_codicioso clase k s' with
        | Some r => Some r
        | None => k s'
        end
      else None
  end.

(** [\d]. *)
Definition es_digito (c : ascii) : bool :=
  let n := nat_of_ascii c in (48 <=? n)%nat && (n <=? 57)%nat.

(** [[^_]]. *)
Definition no_guion_bajo (c : ascii) : bool := negb (c =? guion_bajo)%char.

(** Every character of [s] satisfies [p]. *)
Fixpoint todos (p : ascii -> bool) (s : string) : bool :=
  match s with
  | EmptyString => true
  | String c s' => p c && todos p s'
  end.

(** [s] holds no line feed. *)
Definition sin_salto (s : string) : bool := todos (fun c => negb (c =? LF)%char) s.

End Texto.

(* ================================================================== *)
(** * Tables: the part of pandas the source relies on *)
(* ================================================================== *)

Module Pandas.

Import Texto.
Local Open Scope string_scope.

(** A cell is a number (a missing value is the number NaN) or a text. *)
Inductive cell : Set :=
  | CNum (x : float)
  | CStr (s : string).

Definition Serie : Set := list cell.

(** A [DataFrame]: the length of its index, its columns in order, each a
    label and the cells of the column, and the dictionary [attrs].  Labels
    may repeat, as pandas allows. *)
Record DataFrame : Set := mkDF {
  n_filas : nat;
  cols : list (string * Serie);
  attrs : list (string * string)
}.

(** [df.columns]. *)
Definition columns (df : DataFrame) : list string := map fst (cols df).

(** The exceptions that reach the caller. *)
Inductive excepcion : Set :=
  | KeyError (key : string)
  | TypeError
  | ErrorDeLectura (msg : string).

(** Computations that may raise. *)
Definition resultado (A : Type) : Type := (excepcion + A)%type.

Definition ret {A : Type} (a : A) : resultado A := inr a.

Definition bind {A B : Type} (m : resultado A) (f : A -> resultado B)
  : resultado B :=
  match m with
  | inl e => inl e
  | inr a => f a
  end.

(** [d.get(key, default)] on a dictionary of texts. *)
Fixpoint dict_get_default (d : list (string * string)) (key default : string)
  : string :=
  match d with
  | [] => default
  | (k, v) :: d' => if k =? key then v else dict_get_default d' key default
  end.

(** [df.head(n)]: the first [n] rows; all but the last [-n] when [n] is
    negative. *)
Definition head (n : Z) (df : DataFrame) : DataFrame :=
  let k := if (0 <=? n)%Z then Z.to_nat n
           else (n_filas df - Z.to_nat (- n))%nat in
  mkDF (Nat.min k (n_filas df))
       (map (fun c => (fst c, firstn k (snd c))) (cols df))
       (attrs df).

(** A dictionary literal [{k1: v1, k2: v2, ...}] whose keys are optional
    texts: a key written twice keeps the value written last. *)
Fixpoint literal_get (d : list (option string * string)) (key : string)
  : option string :=
  match d with
  | [] => None
  | (k, v) :: d' =>
      match literal_get d' key with
      | Some v' => Some v'
      | None =>
          match k with
          | Some k' => if k' =? key then Some v else None
          | None => None
          end
      end
  end.

(** [df.rename(columns=d)]: every label that is a key of [d] is replaced by
    its value; the other labels stay. *)
Definition rename (d : list (option string * string)) (df : DataFrame)
  : DataFrame :=
  mkDF (n_filas df)
       (map (fun c => (match literal_get d (fst c) with
                       | Some nuevo => nuevo
                       | None => fst c
                       end, snd c)) (cols df))
       (attrs df).

(** [df[key]] for one label: a Series when one column carries the label, a
    DataFrame when several do, [KeyError] when none does. *)
Inductive seleccion : Set :=
  | UnaSerie (s : Serie)
  | VariasColumnas (cs : list (string * Serie)).

Definition getitem (key : string) (df : DataFrame) : resultado seleccion :=
  match filter (fun c => fst c =? key) (cols df) with
  | [] => inl (KeyError key)
  | [c] => inr (UnaSerie (snd c))
  | cs => inr (VariasColumnas cs)
  end.

(** [df[key] = serie]: the column of that label is replaced where it
    stands; a new label is appended as the last column. *)
Definition setitem (key : string) (s : Serie) (df : DataFrame) : DataFrame :=
  if existsb (fun c => fst c =? key) (cols df)
  then mkDF (n_filas df)
            (map (fun c => if fst c =? key then (key, s) else c) (cols df))
            (attrs df)
  else mkDF (n_filas df) (cols df ++ [(key, s)]) (attrs df).

(** [df[key] = escalar]: the scalar fills the whole column. *)
Definition setitem_escalar (key : string) (v : cell) (df : DataFrame)
  : DataFrame :=
  setitem key (repeat v (n_filas df)) df.

(** [df[[k1, k2, ...]]]: for each label in turn, every column that carries
    it; [KeyError] on a label no column carries. *)
Fixpoint columnas_de (keys : list string) (df : DataFrame)
  : resultado (list (string * Serie)) :=
  match keys with
  | [] => ret []
  | key :: keys' =>
      match filter (fun c => fst c =? key) (cols df) with
      | [] => inl (KeyError key)
      | cs => bind (columnas_de keys' df) (fun resto => ret (cs ++ resto)%list)
      end
  end.

Definition getitem_lista (keys : list string) (df : DataFrame)
  : resultado DataFrame :=
  bind (columnas_de keys df) (fun cs => ret (mkDF (n_filas df) cs (attrs df))).

End Pandas.

(* ================================================================== *)
(** * Column-name conventions: contrasts, the gene column, display names *)
(* ================================================================== *)

Module Nombres.

Import Texto.
Local Open Scope string_scope.

(** The keys of [patrones], which are also the keys of a contrast record. *)
Inductive tipo : Set := T_logFC | T_AveExpr | T_adjP | T_P.

Definition tipo_eqb (a b : tipo) : bool :=
  match a, b with
  | T_logFC, T_logFC | T_AveExpr, T_AveExpr | T_adjP, T_adjP | T_P, T_P => true
  | _, _ => false
  end.

(** The record [{"logFC": None, "AveExpr": None, "adjP": None, "P": None}]. *)
Record Meta : Set := mkMeta {
  m_logFC : option string;
  m_AveExpr : option string;
  m_adjP : option string;
  m_P : option string
}.

Definition meta_vacio : Meta := mkMeta None None None None.

(** [d[tipo]]. *)
Definition campo (t : tipo) (d : Meta) : option string :=
  match t with
  | T_logFC => m_logFC d
  | T_AveExpr => m_AveExpr d
  | T_adjP => m_adjP d
  | T_P => m_P d
  end.

(** [d[tipo] = col]. *)
Definition asignar (t : tipo) (col : string) (d : Meta) : Meta :=
  match t with
  | T_logFC => mkMeta (Some col) (m_AveExpr d) (m_adjP d) (m_P d)
  | T_AveExpr => mkMeta (m_logFC d) (Some col) (m_adjP d) (m_P d)
  | T_adjP => mkMeta (m_logFC d) (m_AveExpr d) (Some col) (m_P d)
  | T_P => mkMeta (m_logFC d) (m_AveExpr d) (m_adjP d) (Some col)
  end.

(** The dictionary [patrones], in its insertion order; each pattern is
    [(.+?)<suffix>$] under [re.IGNORECASE] and is given by its suffix
    (the dots of the source are escaped, hence literal). *)
Definition patrones : list (tipo * string) :=
  [ (T_logFC, "_logFC"); (T_AveExpr, "_AveExpr");
    (T_adjP, "_adj.P.Val"); (T_P, "_P.Value") ].

(** The suffix of a role. *)
Definition sufijo (t : tipo) : string :=
  match t with
  | T_logFC => "_logFC"
  | T_AveExpr => "_AveExpr"
  | T_adjP => "_adj.P.Val"
  | T_P => "_P.Value"
  end.

(** What follows the group in a pattern: the suffix in any case, then [$]. *)
Definition cola (suf : string) (s : string) : bool :=
  match literal_nocase suf s with
  | Some r => fin r
  | None => false
  end.

(** [pat.match(col)] for the pattern of suffix [suf]: [m.group(1)] when
    the pattern matches from the start of [col], [None] otherwise. *)
Definition pat_match (suf col : string) : option string :=
  grupo_perezoso (cola suf) "" col.

(** The inner loop with its [break]: the first pattern that matches [col],
    with the prefix it captures. *)
Fixpoint primer_patron (pats : list (tipo * string)) (col : string)
  : option (tipo * string) :=
  match pats with
  | [] => None
  | (t, suf) :: pats' =>
      match pat_match suf col with
      | Some pref => Some (t, pref)
      | None => primer_patron pats' col
      end
  end.

(** The dictionary [info]: contrast records by prefix, in insertion order. *)
Definition Info : Set := list (string * Meta).

(** [pref in info]. *)
Definition dict_mem (pref : string) (info : Info) : bool :=
  existsb (fun e => fst e =? pref) info.

(** [info[pref] = f(info[pref])]: the record stored under [pref] is
    changed where it stands. *)
Definition dict_update (pref : string) (f : Meta -> Meta) (info : Info) : Info :=
  map (fun e => if fst e =? pref then (fst e, f (snd e)) else e) info.

(** One turn of the outer loop (lines 81-89). *)
Definition paso (info : Info) (col : string) : Info :=
  match primer_patron patrones col with
  | Some (t, pref) =>
      let info1 :=
        if dict_mem pref info then info else (info ++ [(pref, meta_vacio)])%list in
      dict_update pref (asignar t col) info1
  | None => info
  end.

(** The test of line 92: [d["logFC"] and (d["adjP"] or d["P"])]. *)
Definition valido (d : Meta) : bool :=
  truthy (m_logFC d) && (truthy (m_adjP d) || truthy (m_P d)).

(** [detectar_contrastes(df)], on [df.columns] (lines 72-94). *)
Definition detectar_contrastes (columns : list string) : Info :=
  let info := fold_left paso columns [] in
  filter (fun e => valido (snd e)) info.

(** [elegir_columna_gen(df)], on [df.columns] (lines 96-101). *)
Definition candidatos : list string :=
  ["SYMBOL"; "gene_id"; "Geneid"; "GeneID"; "gene"; "Gene"; "locus_tag"].

Fixpoint primero_presente (cands columns : list string) : option string :=
  match cands with
  | [] => None
  | c :: cands' =>
      if existsb (String.eqb c) columns then Some c
      else primero_presente cands' columns
  end.

Definition elegir_columna_gen (columns : list string) : option string :=
  primero_presente candidatos columns.

(** The match of [^PRJNA\d+_[^_]+_] at the start of [pref]: what follows
    the matched segment. *)
Definition re_prjna (pref : string) : option string :=
  match literal "PRJNA" pref with
  | Some r0 =>
      mas_codicioso es_digito
        (fun r1 =>
           match literal "_" r1 with
           | Some r2 => mas_codicioso no_guion_bajo (literal "_") r2
           | None => None
           end) r0
  | None => None
  end.

(** [pretty_contrast_name(pref)] (lines 103-104):
    [re.sub(r"^PRJNA\d+_[^_]+_", "", pref)].  The pattern is anchored at
    the start of the string, so it is replaced at most once. *)
Definition pretty_contrast_name (pref : string) : string :=
  match re_prjna pref with
  | Some resto => resto
  | None => pref
  end.

End Nombres.

(* ================================================================== *)
(** * The table loader and the per-contrast table builder *)
(* ================================================================== *)

Module Carga.

Import Texto Pandas.
Local Open Scope string_scope.

Notation "x <- m ;; k" := (bind m (fun x => k))
  (at level 61, m at next level, right associativity).

Definition TAB : ascii := "009"%char.

Section Lectores.

(** The two readers of pandas, as the source calls them.
    [pd_read_excel bytes] is [pd.read_excel(io.BytesIO(bytes))];
    [pd_read_csv bytes sep nrows] is [pd.read_csv(io.BytesIO(bytes), ...)],
    where [sep = None] asks the python engine to sniff the separator and
    [nrows = None] reads every row.  Either may raise. *)
Variable pd_read_excel : string -> resultado DataFrame.
Variable pd_read_csv : string -> option string -> option nat -> resultado DataFrame.

(** [read_table(file_bytes, filename, sep_choice, nrows_preview)]
    (lines 37-69). *)
Definition read_table (file_bytes filename sep_choice : string)
  (nrows_preview : Z) : resultado (DataFrame * DataFrame) :=
  let name := lower filename in
  df <- (if endswith name ".xlsx" || endswith name ".xls"
         then pd_read_excel file_bytes
         else
           sep_real <-
             (if sep_choice =? "auto" then
                if endswith name ".tsv" then ret (String TAB "")
                else
                  sniff_df <- pd_read_csv file_bytes None (Some 1000%nat) ;;
                  ret (dict_get_default (attrs sniff_df) "delimiter" ",")
              else if sep_choice =? "\t" then ret (String TAB "")
              else ret sep_choice) ;;
           pd_read_csv file_bytes (Some sep_real) None) ;;
  let preview := head nrows_preview df in
  ret (df, preview).

End Lectores.

(** ** A reader of plain delimited text

    A small reader with the interface of [pd.read_csv], for texts without
    quoting: lines end at a line feed, the first line holds the labels,
    every cell is kept as text and the table carries no attribute.  Without
    a separator it takes the first of [,], [;], tab and [|] that the first
    line contains, the comma when it contains none.  It stands in for
    pandas in the examples: it infers no numbers, decodes no bytes and
    renames no repeated label, and the theorems on the loader hold for
    every reader, not for this one only. *)

(** [s.split(sep)] for a one-character separator. *)
Fixpoint partir (sep : ascii) (campo s : string) : list string :=
  match s with
  | EmptyString => [campo]
  | String c s' =>
      if (c =? sep)%char then campo :: partir sep "" s'
      else partir sep (campo ++ String c "") s'
  end.

(** The lines of a text; a final line feed opens no line. *)
Definition lineas (s : string) : list string :=
  match rev (partir LF "" s) with
  | "" :: resto => rev resto
  | _ => partir LF "" s
  end.

Fixpoint contiene (c : ascii) (s : string) : bool :=
  match s with
  | EmptyString => false
  | String x s' => (x =? c)%char || contiene c s'
  end.

Definition olfatear (linea : string) : ascii :=
  if contiene ","%char linea then ","%char
  else if contiene ";"%char linea then ";"%char
  else if contiene TAB linea then TAB
  else if contiene "|"%char linea then "|"%char
  else ","%char.

(** The [i]-th cell of every row, as a column. *)
Definition columna (i : nat) (filas : list (list string)) : Serie :=
  map (fun fila => CStr (nth i fila "")) filas.

Definition lector_csv (file_bytes : string) (sep : option string)
  (nrows : option nat) : resultado DataFrame :=
  match lineas file_bytes with
  | [] => inl (ErrorDeLectura "No columns to parse from file")
  | cabecera :: resto =>
      let d := match sep with
               | Some (String c _) => c
               | _ => olfatear cabecera
               end in
      let etiquetas := partir d "" cabecera in
      let filas := map (partir d "") resto in
      let filas := match nrows with
                   | Some n => firstn n filas
                   | None => filas
                   end in
      ret (mkDF (List.length filas)
                (map (fun ie => (snd ie, columna (fst ie) filas))
                     (combine (seq 0 (List.length etiquetas)) etiquetas))
                [])
  end.

(** A reader of workbooks that never succeeds: the examples load text. *)
Definition lector_excel (file_bytes : string) : resultado DataFrame :=
  inl (ErrorDeLectura "not a workbook").

End Carga.

Module Constructor.

Import Texto Pandas Nombres.
Local Open Scope string_scope.

Notation "x <- m ;; k" := (bind m (fun x => k))
  (at level 61, m at next level, right associativity).

Section Numerico.

(** The two numeric routines the builder borrows: the text-to-number
    conversion of [pd.to_numeric] ([None] when the text is no number) and
    [np.log10]. *)
Variable str_a_float : string -> option float.
Variable np_log10 : float -> float.

(** [pd.to_numeric(serie, errors="coerce")], cell by cell: a number stays,
    a text becomes the number it spells, or NaN. *)
Definition a_numero (c : cell) : cell :=
  match c with
  | CNum x => CNum x
  | CStr s => match str_a_float s with
              | Some x => CNum x
              | None => CNum nan
              end
  end.

(** [pd.to_numeric(arg, errors="coerce")]: a Series is converted; a
    DataFrame raises [TypeError]. *)
Definition to_numeric (arg : seleccion) : resultado Serie :=
  match arg with
  | UnaSerie s => ret (map a_numero s)
  | VariasColumnas _ => inl TypeError
  end.

(** [np.clip(x, lo, hi)] on a number: NaN stays NaN. *)
Definition np_clip (x lo hi : float) : float :=
  if is_nan x then x
  else if (x <? lo)%float then lo
  else if (hi <? x)%float then hi
  else x.

(** [-np.log10(np.clip(x, 1e-300, 1.0))]; a text cell cannot occur in a
    converted column and gives NaN. *)
Definition neg_log10 (c : cell) : cell :=
  match c with
  | CNum x => CNum (- np_log10 (np_clip x 1e-300 1))%float
  | CStr _ => CNum nan
  end.

(** The column an expression over one label works on. *)
Definition una_serie (arg : seleccion) : resultado Serie :=
  match arg with
  | UnaSerie s => ret s
  | VariasColumnas _ => inl TypeError
  end.

(** [info_contrastes[contraste]]. *)
Fixpoint info_get (contraste : string) (info : Info) : resultado Meta :=
  match info with
  | [] => inl (KeyError contraste)
  | (k, d) :: info' => if k =? contraste then ret d else info_get contraste info'
  end.

(** [preparar_deg_por_contraste(df, gene_col, contraste, info_contrastes)]
    (lines 106-123). *)
Definition preparar_deg_por_contraste (df : DataFrame) (gene_col contraste : string)
  (info_contrastes : Info) : resultado DataFrame :=
  meta <- info_get contraste info_contrastes ;;
  let logfc_col := m_logFC meta in
  let ave_col := m_AveExpr meta in
  let padj_col := if truthy (m_adjP meta) then m_adjP meta else m_P meta in
  let work := rename [ (Some gene_col, "gene");
                       (logfc_col, "logFC");
                       (padj_col, "padj") ] df in
  let work := if truthy ave_col
              then rename [ (ave_col, "AveExpr") ] work
              else setitem_escalar "AveExpr" (CNum nan) work in
  sel <- getitem "padj" work ;;
  num <- to_numeric sel ;;
  let work := setitem "padj" num work in
  sel <- getitem "logFC" work ;;
  num <- to_numeric sel ;;
  let work := setitem "logFC" num work in
  sel <- getitem "padj" work ;;
  s <- una_serie sel ;;
  let work := setitem "neg_log10_padj" (map neg_log10 s) work in
  getitem_lista ["gene"; "logFC"; "AveExpr"; "padj"; "neg_log10_padj"] work.

End Numerico.

End Constructor.

(* ================================================================== *)
(** * The download link *)
(* ================================================================== *)

Module Enlace.

Local Open Scope string_scope.

(** The double quote of the link's attributes. *)
Definition comillas : ascii := "034"%char.

(** The alphabet of [base64.b64encode], and its padding character. *)
Definition alfabeto : string :=
  "ABCDEFGHIJKLMNOPQRSTUVWXYZabcdefghijklmnopqrstuvwxyz0123456789+/".

Definition relleno : ascii := "="%char.

Definition bit (b : bool) (peso : nat) : nat := if b then peso else 0.

(** The character of six bits, the most significant first. *)
Definition sexteto (x5 x4 x3 x2 x1 x0 : bool) : ascii :=
  match String.get (bit x5 32 + bit x4 16 + bit x3 8 + bit x2 4 + bit x1 2 + bit x0 1)
                   alfabeto with
  | Some c => c
  | None => relleno
  end.

(** [base64.b64encode(data).decode()]: each group of three bytes gives
    four characters, six bits each; a last group of one or two bytes is
    completed with zero bits and padded with [=].  In [Ascii b0 ... b7] the
    bit [b0] is the least significant. *)
Fixpoint b64encode (data : string) : string :=
  match data with
  | EmptyString => EmptyString
  | String (Ascii a0 a1 a2 a3 a4 a5 a6 a7) EmptyString =>
      String (sexteto a7 a6 a5 a4 a3 a2)
        (String (sexteto a1 a0 false false false false)
           (String relleno (String relleno EmptyString)))
  | String (Ascii a0 a1 a2 a3 a4 a5 a6 a7)
      (String (Ascii b0 b1 b2 b3 b4 b5 b6 b7) EmptyString) =>
      String (sexteto a7 a6 a5 a4 a3 a2)
        (String (sexteto a1 a0 b7 b6 b5 b4)
           (String (sexteto b3 b2 b1 b0 false false)
              (String relleno EmptyString)))
  | String (Ascii a0 a1 a2 a3 a4 a5 a6 a7)
      (String (Ascii b0 b1 b2 b3 b4 b5 b6 b7)
         (String (Ascii c0 c1 c2 c3 c4 c5 c6 c7) resto)) =>
      String (sexteto a7 a6 a5 a4 a3 a2)
        (String (sexteto a1 a0 b7 b6 b5 b4)
           (String (sexteto b3 b2 b1 b0 c7 c6)
              (String (sexteto c5 c4 c3 c2 c1 c0) (b64encode resto))))
  end.

(** [bytes_download_link(data, filename, label)] (lines 33-35):
[[
  <a download="{filename}" href="data:file/octet-stream;base64,{b64}">{label}</a>
]] *)
Definition bytes_download_link (data filename label : string) : string :=
  let b64 := b64encode data in
  "<a download=" ++ String comillas filename ++ String comillas " href="
  ++ String comillas "data:file/octet-stream;base64," ++ b64
  ++ String comillas ">" ++ label ++ "</a>".

End Enlace.
(* ================================================================== *)
(** * Tab 2 and tab 3: the per-row classifier and the vectorised filter *)
(* ================================================================== *)

Module Clasificador.

Local Open Scope float_scope.

(** The two numeric cells of a row of the derived table that the
    classifier and the filter read: [row["logFC"]] and [row["padj"]]. *)
Record DegRow : Set := mkDegRow { logFC : float; padj : float }.

(** The four labels returned by [cat]. *)
Inductive categoria : Set := Up | Down | NoSig | NoEval.

(** The label as the string the source returns. *)
Definition etiqueta (c : categoria) : string :=
  match c with
  | Up => "Up"
  | Down => "Down"
  | NoSig => "No sig"
  | NoEval => "No eval"
  end.

(** [cat(row)], the closure of lines 195-200, with the two thresholds it
    captures made explicit.
<<
    if np.isnan(row["logFC"]) or np.isnan(row["padj"]): return "No eval"
    if abs(row["logFC"]) >= thr_logfc and row["padj"] <= thr_padj:
        return "Up" if row["logFC"] > 0 else "Down"
    return "No sig"
>> *)
Definition cat (thr_logfc thr_padj : float) (row : DegRow) : categoria :=
  if is_nan (logFC row) || is_nan (padj row) then NoEval
  else if (thr_logfc <=? abs (logFC row)) && (padj row <=? thr_padj)
       then (if 0 <? logFC row then Up else Down)
       else NoSig.

(** Line 231: [mask = (deg["logFC"].abs() >= thr_logfc) & (deg["padj"] <= thr_padj)],
    one boolean per row. *)
Definition mask (thr_logfc thr_padj : float) (deg : list DegRow) : list bool :=
  map (fun row => (thr_logfc <=? abs (logFC row)) && (padj row <=? thr_padj)) deg.

(** [deg.loc[mask]]: the rows whose mask entry is [True], in table order. *)
Fixpoint loc (deg : list DegRow) (m : list bool) : list DegRow :=
  match deg, m with
  | row :: deg', b :: m' => if b then row :: loc deg' m' else loc deg' m'
  | _, _ => []
  end.

(** The rows the DEGs view keeps before sorting them. *)
Definition deg_filt (thr_logfc thr_padj : float) (deg : list DegRow) : list DegRow :=
  loc deg (mask thr_logfc thr_padj deg).

(** A row is significant when the classifier labels it [Up] or [Down]. *)
Definition es_significativo (c : categoria) : bool :=
  match c with
  | Up | Down => true
  | NoSig | NoEval => false
  end.

End Clasificador.

(* ================================================================== *)
(** * Facts on binary64 comparisons *)
(* ================================================================== *)

Section FloatFacts.

Local Open Scope float_scope.

Lemma is_nan_spec (x : float) : is_nan x = true <-> Prim2SF x = S754_nan.
Proof.
  unfold is_nan. rewrite FloatAxioms.eqb_spec.
  destruct (Prim2SF x) as [s|s| |s m e]; simpl.
  - destruct s; simpl; split; discriminate.
  - destruct s; simpl; split; discriminate.
  - split; reflexivity.
  - unfold SFeqb; simpl.
    destruct s; rewrite Z.compare_refl, Pos.compare_cont_refl; simpl;
      split; discriminate.
Qed.

Lemma SFleb_trans (x y z : spec_float) :
  SFleb x y = true -> SFleb y z = true -> SFleb x z = true.
Proof.
  unfold SFleb, SFcompare.
  destruct x as [[]|[]| |[] mx ex], y as [[]|[]| |[] my ey],
           z as [[]|[]| |[] mz ez]; try (intros; reflexivity || discriminate).
  all: rewrite !Pos.compare_cont_spec; simpl.
  all: destruct (Z.compare_spec ex ey), (Z.compare_spec ey ez),
         (Z.compare_spec ex ez); try lia; subst;
       try (intros; reflexivity || discriminate).
  all: destruct (Pos.compare_spec mx my), (Pos.compare_spec my mz),
         (Pos.compare_spec mx mz); try lia; subst;
       simpl; try (intros; reflexivity || discriminate).
Qed.

Lemma leb_trans (x y z : float) :
  (x <=? y) = true -> (y <=? z) = true -> (x <=? z) = true.
Proof. rewrite !FloatAxioms.leb_spec. apply SFleb_trans. Qed.

Lemma leb_not_nan_l (x y : float) : (x <=? y) = true -> is_nan x = false.
Proof.
  rewrite FloatAxioms.leb_spec. intros H.
  destruct (is_nan x) eqn:E; [|reflexivity].
  apply is_nan_spec in E. rewrite E in H. discriminate.
Qed.

Lemma leb_not_nan_r (x y : float) : (x <=? y) = true -> is_nan y = false.
Proof.
  rewrite FloatAxioms.leb_spec. intros H.
  destruct (is_nan y) eqn:E; [|reflexivity].
  apply is_nan_spec in E. rewrite E in H.
  destruct (Prim2SF x) as [[]|[]| |[] ? ?]; discriminate.
Qed.

Lemma abs_is_nan (x : float) : is_nan (abs x) = is_nan x.
Proof.
  apply eq_true_iff_eq. rewrite !is_nan_spec, abs_spec.
  destruct (Prim2SF x); simpl; split; congruence.
Qed.

(** [x <= y] excludes [y < x]. *)
Lemma leb_no_ltb (x y : float) : (x <=? y) = true -> (y <? x) = false.
Proof.
  rewrite FloatAxioms.leb_spec, FloatAxioms.ltb_spec.
  unfold SFleb, SFltb, SFcompare.
  destruct (Prim2SF x) as [[]|[]| |[] mx ex],
           (Prim2SF y) as [[]|[]| |[] my ey];
    try reflexivity; try discriminate;
    rewrite !Pos.compare_cont_spec;
    rewrite (Z.compare_antisym ex ey), (Pos.compare_antisym mx my);
    destruct (ex ?= ey)%Z, (mx ?= my)%positive; simpl;
    try reflexivity; discriminate.
Qed.

(** For a number, "not above zero" is "at most zero". *)
Lemma ltb_zero_false (x : float) :
  is_nan x = false -> ((0 <? x) = false <-> (x <=? 0) = true).
Proof.
  intros Hn. rewrite FloatAxioms.ltb_spec, FloatAxioms.leb_spec.
  assert (Prim2SF x <> S754_nan) as Hx.
  { intros E. apply is_nan_spec in E. congruence. }
  change (Prim2SF 0) with (S754_zero false).
  unfold SFltb, SFleb.
  destruct (Prim2SF x) as [[]|[]| |[] ? ?]; simpl;
    try (exfalso; apply Hx; reflexivity); split; congruence.
Qed.

End FloatFacts.

(* ================================================================== *)
(** * Facts on strings and on the matchers *)
(* ================================================================== *)

Section TextoFacts.

Import Texto.
Local Open Scope string_scope.

Lemma append_nil_r (s : string) : s ++ "" = s.
Proof. induction s as [|c s IH]; simpl; [reflexivity | now rewrite IH]. Qed.

Lemma append_assoc (a b c : string) : (a ++ b) ++ c = a ++ (b ++ c).
Proof. induction a as [|x a IH]; simpl; [reflexivity | now rewrite IH]. Qed.

Lemma length_append (a b : string) :
  String.length (a ++ b) = String.length a + String.length b.
Proof. induction a as [|x a IH]; simpl; [reflexivity | now rewrite IH]. Qed.

Lemma length_zero (s : string) : String.length s = 0 -> s = "".
Proof. destruct s; [reflexivity | discriminate]. Qed.

(** Two splittings of one string with tails of equal length coincide. *)
Lemma append_inj_length (a b a' b' : string) :
  a ++ b = a' ++ b' -> String.length b = String.length b' ->
  a = a' /\ b = b'.
Proof.
  revert a'. induction a as [|x a IH]; intros [|x' a'] E L; simpl in *.
  - split; [reflexivity | exact E].
  - exfalso. subst b. simpl in L. rewrite length_append in L. lia.
  - exfalso. subst b'. simpl in L. rewrite length_append in L. lia.
  - injection E as -> E. destruct (IH a' E L) as [-> ->]. split; reflexivity.
Qed.

Lemma lower_length (s : string) : String.length (lower s) = String.length s.
Proof. induction s as [|c s IH]; simpl; [reflexivity | now rewrite IH]. Qed.

Lemma todos_append (p : ascii -> bool) (a b : string) :
  todos p (a ++ b) = todos p a && todos p b.
Proof.
  induction a as [|x a IH]; simpl; [reflexivity|].
  rewrite IH. apply andb_assoc.
Qed.

(** [literal] strips exactly its literal. *)
Lemma literal_Some (lit s r : string) :
  literal lit s = Some r <-> s = lit ++ r.
Proof.
  revert s. induction lit as [|a lit IH]; intros s; simpl.
  - split; [intros [= ->]; reflexivity | intros ->; reflexivity].
  - destruct s as [|b s]; [split; discriminate|].
    destruct (Ascii.eqb_spec a b) as [->|Hab].
    + rewrite IH. split; [intros ->; reflexivity | intros [= ->]; reflexivity].
    + split; [discriminate | intros [= E _]; congruence].
Qed.

Lemma literal_otro (a c : ascii) (lit s : string) :
  a <> c -> literal (String a lit) (String c s) = None.
Proof.
  intros H. simpl. destruct (Ascii.eqb_spec a c); [contradiction|reflexivity].
Qed.

(** [literal_nocase] strips a run that is its literal up to case. *)
Lemma literal_nocase_Some (lit s r : string) :
  literal_nocase lit s = Some r <->
  exists u, s = u ++ r /\ lower u = lower lit.
Proof.
  revert s. induction lit as [|a lit IH]; intros s; simpl.
  - split.
    + intros [= ->]. exists "". split; reflexivity.
    + intros (u & -> & Hu). destruct u; [reflexivity | discriminate].
  - destruct s as [|b s].
    + split; [discriminate|].
      intros (u & Hs & Hu). destruct u; simpl in *; discriminate.
    + destruct (Ascii.eqb_spec (minuscula a) (minuscula b)) as [Hab|Hab].
      * rewrite IH. split.
        -- intros (u & -> & Hu). exists (String b u). simpl.
           split; [reflexivity | now rewrite Hu, Hab].
        -- intros (u & Hs & Hu). destruct u as [|x u]; [discriminate|].
           simpl in Hs, Hu. injection Hs as -> ->. injection Hu as _ Hu.
           exists u. split; [reflexivity | exact Hu].
      * split; [discriminate|].
        intros (u & Hs & Hu). destruct u as [|x u]; [discriminate|].
        simpl in Hs, Hu. injection Hs as -> ->. injection Hu as Hx _.
        congruence.
Qed.

(** A greedy run stops where the class stops, when the continuation cannot
    start on a character of the class. *)
Lemma mas_codicioso_run (clase : ascii -> bool) (k : string -> option string)
  (run s : string) :
  (forall c s', clase c = true -> k (String c s') = None) ->
  (forall c s', s = String c s' -> clase c = false) ->
  run <> "" -> todos clase run = true ->
  mas_codicioso clase k (run ++ s) = k s.
Proof.
  intros Hk Hs. induction run as [|c run IH]; intros Hne Hall.
  - contradiction.
  - simpl in Hall. apply andb_true_iff in Hall as [Hc Hall].
    simpl. rewrite Hc. destruct run as [|c' run'].
    + simpl. destruct s as [|x s']; simpl.
      * reflexivity.
      * rewrite (Hs x s' eq_refl). reflexivity.
    + rewrite IH by (discriminate || exact Hall).
      destruct (k s) eqn:Eks; [reflexivity|].
      simpl in Hall. apply andb_true_iff in Hall as [Hc' _].
      simpl. apply Hk. exact Hc'.
Qed.

(** Whatever a greedy run returns, it consumed a non-empty run of the class
    and the continuation returned it on the rest. *)
Lemma mas_codicioso_Some (clase : ascii -> bool) (k : string -> option string)
  (s r : string) :
  mas_codicioso clase k s = Some r ->
  exists run s', s = run ++ s' /\ run <> "" /\ todos clase run = true /\
                 k s' = Some r.
Proof.
  revert r. induction s as [|c s IH]; intros r; simpl; [discriminate|].
  destruct (clase c) eqn:Hc; [|discriminate].
  destruct (mas_codicioso clase k s) as [r'|] eqn:E.
  - intros [= <-]. destruct (IH r' eq_refl) as (run & s' & -> & _ & Hall & Hk).
    exists (String c run), s'. simpl. rewrite Hc, Hall.
    repeat split; try assumption; discriminate.
  - intros Hk. exists (String c ""), s. simpl. rewrite Hc.
    repeat split; try assumption; discriminate.
Qed.

End TextoFacts.

(* ================================================================== *)
(** * The classifier and the DEGs filter: properties *)
(* ================================================================== *)

Section ClasificadorFacts.

Import Clasificador.
Local Open Scope float_scope.

(** The threshold test of [cat] and of [mask], as one boolean. *)
Definition supera (thr_logfc thr_padj : float) (row : DegRow) : bool :=
  (thr_logfc <=? abs (logFC row)) && (padj row <=? thr_padj).

(** A row that passes both thresholds holds two numbers. *)
Lemma supera_numeros thr_logfc thr_padj row :
  supera thr_logfc thr_padj row = true ->
  is_nan (logFC row) = false /\ is_nan (padj row) = false.
Proof.
  unfold supera. intros H. apply andb_true_iff in H as [Hl Hp]. split.
  - rewrite <- abs_is_nan. exact (leb_not_nan_r _ _ Hl).
  - exact (leb_not_nan_l _ _ Hp).
Qed.

(** [cat] is significant exactly on the rows that pass both thresholds. *)
Lemma cat_significativo thr_logfc thr_padj row :
  es_significativo (cat thr_logfc thr_padj row) = supera thr_logfc thr_padj row.
Proof.
  unfold cat. fold (supera thr_logfc thr_padj row).
  destruct (supera thr_logfc thr_padj row) eqn:Hs.
  - destruct (supera_numeros _ _ _ Hs) as [-> ->]. simpl.
    destruct (0 <? logFC row); reflexivity.
  - destruct (is_nan (logFC row) || is_nan (padj row)); reflexivity.
Qed.

(** Passing the thresholds survives a lower [thr_logfc] and a higher
    [thr_padj]. *)
Lemma supera_monotona t p t' p' row :
  (t' <=? t) = true -> (p <=? p') = true ->
  supera t p row = true -> supera t' p' row = true.
Proof.
  unfold supera. intros Ht Hp H. apply andb_true_iff in H as [Hl Hq].
  apply andb_true_iff. split.
  - exact (leb_trans _ _ _ Ht Hl).
  - exact (leb_trans _ _ _ Hq Hp).
Qed.

(** C2. For every row and every pair of thresholds, [cat] returns
    "No eval" exactly when logFC or padj is NaN; on a row of two numbers
    it returns "Up" exactly when [|logFC| >= thr_logfc], [padj <= thr_padj]
    and [logFC > 0], "Down" exactly when both threshold tests hold and
    [logFC <= 0], and "No sig" exactly when one of the threshold tests
    fails.  The tests are the non-strict [>=] and [<=], so equality at a
    threshold counts as significant. *)
Theorem cat_correcto (thr_logfc thr_padj : float) (row : DegRow) :
  (cat thr_logfc thr_padj row = NoEval <->
     is_nan (logFC row) = true \/ is_nan (padj row) = true) /\
  (cat thr_logfc thr_padj row = Up <->
     is_nan (logFC row) = false /\ is_nan (padj row) = false /\
     (thr_logfc <=? abs (logFC row)) = true /\
     (padj row <=? thr_padj) = true /\ (0 <? logFC row) = true) /\
  (cat thr_logfc thr_padj row = Down <->
     is_nan (logFC row) = false /\ is_nan (padj row) = false /\
     (thr_logfc <=? abs (logFC row)) = true /\
     (padj row <=? thr_padj) = true /\ (logFC row <=? 0) = true) /\
  (cat thr_logfc thr_padj row = NoSig <->
     is_nan (logFC row) = false /\ is_nan (padj row) = false /\
     ~ ((thr_logfc <=? abs (logFC row)) = true /\
        (padj row <=? thr_padj) = true)).
Proof.
  unfold cat.
  destruct (is_nan (logFC row)) eqn:Hl; simpl.
  { repeat split; intros; try discriminate; try tauto;
      try (now left); intuition discriminate. }
  destruct (is_nan (padj row)) eqn:Hp; simpl.
  { repeat split; intros; try discriminate; try tauto;
      try (now right); intuition discriminate. }
  pose proof (ltb_zero_false (logFC row) Hl) as Hz.
  destruct (thr_logfc <=? abs (logFC row)) eqn:Ha;
    destruct (padj row <=? thr_padj) eqn:Hb; simpl;
    destruct (0 <? logFC row) eqn:H0; simpl.
  all: repeat split; intros; try discriminate; try reflexivity;
    try tauto; try (intuition discriminate).
  all: try (apply Hz; reflexivity).
  all: try (exfalso; intuition congruence).
Qed.

(** C2, at the thresholds themselves: a row with [|logFC| = thr_logfc]
    and [padj = thr_padj] is labelled, here "Up". *)
Lemma cat_correcto_witness :
  cat 1 0.05 (mkDegRow 1 0.05) = Up /\
  cat 1 0.05 (mkDegRow (-1) 0.05) = Down /\
  cat 1 0.05 (mkDegRow nan 0.05) = NoEval /\
  cat 1 0.05 (mkDegRow 0.5 0.01) = NoSig.
Proof.
  split; [|split; [|split]].
  - apply (cat_correcto 1 0.05 (mkDegRow 1 0.05)).
    repeat (split; [reflexivity|]). reflexivity.
  - apply (cat_correcto 1 0.05 (mkDegRow (-1) 0.05)).
    repeat (split; [reflexivity|]). reflexivity.
  - apply (cat_correcto 1 0.05 (mkDegRow nan 0.05)). left. reflexivity.
  - apply (cat_correcto 1 0.05 (mkDegRow 0.5 0.01)).
    split; [reflexivity|]. split; [reflexivity|].
    intros [H _]. vm_compute in H. discriminate.
Defined.

(** C7. The classifier is monotonic in the thresholds: a row labelled
    "No sig" at [(t, p)] is neither "Up" nor "Down" at any
    [(t' >= t, p' <= p)], and a row labelled "Up" or "Down" at [(t, p)] is
    not "No sig" at any [(t' <= t, p' >= p)] (it keeps its label). *)
Theorem cat_monotona (row : DegRow) (t p t' p' : float) :
  ((t <=? t') = true -> (p' <=? p) = true ->
   cat t p row = NoSig ->
   cat t' p' row <> Up /\ cat t' p' row <> Down) /\
  ((t' <=? t) = true -> (p <=? p') = true ->
   cat t p row = Up \/ cat t p row = Down ->
   cat t' p' row <> NoSig /\ cat t' p' row = cat t p row).
Proof.
  split.
  - intros Ht Hp Hns.
    assert (supera t' p' row = false) as Hf.
    { destruct (supera t' p' row) eqn:Hs; [|reflexivity].
      apply (supera_monotona _ _ _ _ _ Ht Hp) in Hs.
      rewrite <- cat_significativo, Hns in Hs. discriminate. }
    rewrite <- cat_significativo in Hf.
    split; intros E; rewrite E in Hf; discriminate.
  - intros Ht Hp Hud.
    assert (supera t p row = true) as Hs.
    { rewrite <- cat_significativo. destruct Hud as [-> | ->]; reflexivity. }
    pose proof (supera_monotona _ _ _ _ _ Ht Hp Hs) as Hs'.
    assert (cat t' p' row = cat t p row) as E.
    { unfold cat. fold (supera t p row) (supera t' p' row).
      rewrite Hs, Hs'. reflexivity. }
    split; [|exact E].
    rewrite E. destruct Hud as [-> | ->]; discriminate.
Qed.

(** C7 at concrete thresholds: raising [thr_logfc] from 1 to 2 and
    lowering [thr_padj] from 0.05 to 0.01 leaves a "No sig" row
    unlabelled; moving the other way keeps an "Up" row "Up". *)
Lemma cat_monotona_witness :
  (cat 2 0.01 (mkDegRow 0.5 0.2) <> Up /\
   cat 2 0.01 (mkDegRow 0.5 0.2) <> Down) /\
  (cat 1 0.05 (mkDegRow 3 0.001) <> NoSig /\
   cat 1 0.05 (mkDegRow 3 0.001) = cat 2 0.01 (mkDegRow 3 0.001)).
Proof.
  split.
  - apply (proj1 (cat_monotona (mkDegRow 0.5 0.2) 1 0.05 2 0.01));
      reflexivity.
  - apply (proj2 (cat_monotona (mkDegRow 3 0.001) 2 0.01 1 0.05));
      [reflexivity | reflexivity | left; reflexivity].
Defined.

Lemma loc_mask_filter thr_logfc thr_padj (deg : list DegRow) :
  loc deg (mask thr_logfc thr_padj deg) =
  filter (supera thr_logfc thr_padj) deg.
Proof.
  unfold mask. induction deg as [|row deg IH]; simpl; [reflexivity|].
  fold (supera thr_logfc thr_padj row). rewrite IH. reflexivity.
Qed.

(** C10. For every derived table and every pair of thresholds, the
    vectorised filter of the DEGs view keeps exactly the rows, in table
    order, that the per-row classifier labels "Up" or "Down" at the same
    thresholds; no kept row has a NaN logFC or a NaN padj. *)
Theorem deg_filt_es_cat (thr_logfc thr_padj : float) (deg : list DegRow) :
  deg_filt thr_logfc thr_padj deg =
    filter (fun row => es_significativo (cat thr_logfc thr_padj row)) deg /\
  Forall (fun row => is_nan (logFC row) = false /\ is_nan (padj row) = false)
         (deg_filt thr_logfc thr_padj deg).
Proof.
  unfold deg_filt. rewrite loc_mask_filter. split.
  - apply filter_ext. intros row. symmetry. apply cat_significativo.
  - apply Forall_forall. intros row Hin.
    apply filter_In in Hin as [_ Hs]. exact (supera_numeros _ _ _ Hs).
Qed.

End ClasificadorFacts.

(* ================================================================== *)
(** * The gene-column resolver and the display name: properties *)
(* ================================================================== *)

Section ResolverFacts.

Import Texto Nombres.
Local Open Scope string_scope.

Lemma existsb_eqb_In (c : string) (columns : list string) :
  existsb (String.eqb c) columns = true <-> In c columns.
Proof.
  rewrite existsb_exists. split.
  - intros (x & Hin & E). apply String.eqb_eq in E. now subst.
  - intros Hin. exists c. split; [exact Hin | apply String.eqb_refl].
Qed.

Lemma primero_presente_Some (cands columns : list string) (c : string) :
  primero_presente cands columns = Some c <->
  exists antes despues,
    cands = (antes ++ c :: despues)%list /\ In c columns /\
    forall c', In c' antes -> ~ In c' columns.
Proof.
  induction cands as [|x cands IH]; simpl.
  - split; [discriminate|]. intros ([|? ?] & ? & E & _); discriminate.
  - destruct (existsb (String.eqb x) columns) eqn:Ex.
    + apply existsb_eqb_In in Ex. split.
      * intros [= <-]. exists [], cands. simpl. repeat split; tauto.
      * intros ([|y antes] & despues & E & Hc & Hno); simpl in E.
        -- congruence.
        -- injection E as <- _. exfalso. apply (Hno x); [now left | exact Ex].
    + assert (~ In x columns) as Hx.
      { intros Hin. apply existsb_eqb_In in Hin. congruence. }
      rewrite IH. split.
      * intros (antes & despues & -> & Hc & Hno).
        exists (x :: antes), despues. simpl. repeat split; try assumption.
        intros c' [<- | Hin]; [exact Hx | now apply Hno].
      * intros ([|y antes] & despues & E & Hc & Hno); simpl in E.
        -- injection E as -> _. contradiction.
        -- injection E as <- ->. exists antes, despues.
           repeat split; try assumption.
           intros c' Hin. apply Hno. now right.
Qed.

Lemma primero_presente_None (cands columns : list string) :
  primero_presente cands columns = None <->
  forall c, In c cands -> ~ In c columns.
Proof.
  induction cands as [|x cands IH]; simpl.
  - split; [intros _ c [] | reflexivity].
  - destruct (existsb (String.eqb x) columns) eqn:Ex.
    + apply existsb_eqb_In in Ex. split; [discriminate|].
      intros H. exfalso. apply (H x); [now left | exact Ex].
    + rewrite IH. split.
      * intros H c [<- | Hin]; [|now apply H].
        intros Hin. apply existsb_eqb_In in Hin. congruence.
      * intros H c Hin. apply H. now right.
Qed.

(** C6. For every ordered sequence of column names, the resolver returns
    the first name of the priority list SYMBOL, gene_id, Geneid, GeneID,
    gene, Gene, locus_tag that is one of the columns (names compared as
    they are written, the priority list deciding and not the column
    order), and returns none exactly when no candidate is a column; on
    ["Geneid"; "SYMBOL"; "foo"] it returns "SYMBOL". *)
Theorem elegir_columna_gen_correcto (columns : list string) :
  candidatos =
    ["SYMBOL"; "gene_id"; "Geneid"; "GeneID"; "gene"; "Gene"; "locus_tag"] /\
  (forall c, elegir_columna_gen columns = Some c <->
     exists antes despues,
       candidatos = (antes ++ c :: despues)%list /\ In c columns /\
       forall c', In c' antes -> ~ In c' columns) /\
  (elegir_columna_gen columns = None <->
     forall c, In c candidatos -> ~ In c columns) /\
  elegir_columna_gen ["Geneid"; "SYMBOL"; "foo"] = Some "SYMBOL" /\
  elegir_columna_gen ["symbol"; "GENE"] = None.
Proof.
  split; [reflexivity|]. split; [|split; [|split]].
  - intros c. apply primero_presente_Some.
  - apply primero_presente_None.
  - reflexivity.
  - reflexivity.
Qed.

(** C6 on a table whose gene column is the third candidate. *)
Lemma elegir_columna_gen_witness :
  elegir_columna_gen ["foo"; "Gene"; "Geneid"] = Some "Geneid".
Proof.
  apply (proj1 (proj2 (elegir_columna_gen_correcto ["foo"; "Gene"; "Geneid"]))).
  exists ["SYMBOL"; "gene_id"], ["GeneID"; "gene"; "Gene"; "locus_tag"].
  split; [reflexivity|]. split; [simpl; tauto|].
  intros c' [<- | [<- | []]] [E | [E | [E | []]]]; discriminate.
Defined.

(** The identifiers [PRJNA<digits>_<token>_<resto>]: a non-empty run of
    digits, and a non-empty token without underscore. *)
Definition forma_prjna (pref resto : string) : Prop :=
  exists digitos token,
    digitos <> "" /\ todos es_digito digitos = true /\
    token <> "" /\ todos no_guion_bajo token = true /\
    pref = "PRJNA" ++ digitos ++ "_" ++ token ++ "_" ++ resto.

Lemma re_prjna_forma (pref resto : string) :
  re_prjna pref = Some resto <-> forma_prjna pref resto.
Proof.
  unfold re_prjna, forma_prjna. split.
  - destruct (literal "PRJNA" pref) as [r0|] eqn:E0; [|discriminate].
    apply literal_Some in E0. intros H.
    apply mas_codicioso_Some in H as (ds & s1 & -> & Hds & Hdig & H).
    destruct (literal "_" s1) as [r2|] eqn:E1; [|discriminate].
    apply literal_Some in E1.
    apply mas_codicioso_Some in H as (tok & s2 & -> & Htok & Hng & H).
    apply literal_Some in H. subst.
    exists ds, tok. repeat split; assumption.
  - intros (ds & tok & Hds & Hdig & Htok & Hng & ->).
    change (literal "PRJNA" ("PRJNA" ++ ds ++ "_" ++ tok ++ "_" ++ resto))
      with (Some (ds ++ "_" ++ tok ++ "_" ++ resto)).
    cbv beta iota. rewrite mas_codicioso_run; try assumption.
    + change (literal "_" ("_" ++ tok ++ "_" ++ resto))
        with (Some (tok ++ "_" ++ resto)).
      cbv beta iota. rewrite mas_codicioso_run; try assumption.
      * reflexivity.
      * intros c s' Hc. apply literal_otro. intros <-. discriminate.
      * intros c s' [= <- _]. reflexivity.
    + intros c s' Hc. cbv beta.
      rewrite literal_otro; [reflexivity|]. intros <-. discriminate.
    + intros c s' [= <- _]. reflexivity.
Qed.

(** C9. For every contrast identifier, the display name drops a leading
    [PRJNA<digits>_<token>_] (token without underscore) and is what
    follows it; an identifier that does not have that form is displayed
    unchanged; "PRJNA123456_mouse_heart_vs_liver" gives "heart_vs_liver"
    and "CustomContrastA" is unchanged. *)
Theorem pretty_contrast_name_correcto (pref : string) :
  (forall resto, forma_prjna pref resto -> pretty_contrast_name pref = resto) /\
  ((forall resto, ~ forma_prjna pref resto) -> pretty_contrast_name pref = pref) /\
  pretty_contrast_name "PRJNA123456_mouse_heart_vs_liver" = "heart_vs_liver" /\
  pretty_contrast_name "CustomContrastA" = "CustomContrastA".
Proof.
  split; [|split; [|split; reflexivity]].
  - intros resto H. apply re_prjna_forma in H.
    unfold pretty_contrast_name. now rewrite H.
  - intros H. unfold pretty_contrast_name.
    destruct (re_prjna pref) as [resto|] eqn:E; [|reflexivity].
    apply re_prjna_forma in E. exfalso. exact (H resto E).
Qed.

(** C9 on an identifier with a one-digit accession and an empty rest. *)
Lemma pretty_contrast_name_witness :
  pretty_contrast_name "PRJNA7_rat_" = "" /\
  pretty_contrast_name "PRJNA_rat_x" = "PRJNA_rat_x".
Proof.
  split.
  - apply (proj1 (pretty_contrast_name_correcto "PRJNA7_rat_")).
    exists "7", "rat". repeat split; discriminate.
  - apply (proj1 (proj2 (pretty_contrast_name_correcto "PRJNA_rat_x"))).
    intros resto (ds & tok & Hds & Hdig & _ & _ & E).
    destruct ds as [|d ds]; [contradiction|].
    simpl in E. injection E as <- _. discriminate.
Defined.

End ResolverFacts.

(* ================================================================== *)
(** * The contrast detector: what the patterns match *)
(* ================================================================== *)

Section PatronFacts.

Import Texto Nombres.
Local Open Scope string_scope.

(** [col] is the non-empty prefix [pref] followed by the suffix [suf]
    written in any case. *)
Definition es_columna_de (suf pref col : string) : Prop :=
  pref <> "" /\ exists u, col = pref ++ u /\ lower u = lower suf.

Lemma lower_append (a b : string) : lower (a ++ b) = lower a ++ lower b.
Proof. induction a as [|x a IH]; simpl; [reflexivity | now rewrite IH]. Qed.

(** The last character of a string. *)
Fixpoint ultimo (s : string) : option ascii :=
  match s with
  | EmptyString => None
  | String c EmptyString => Some c
  | String _ s' => ultimo s'
  end.

Lemma ultimo_append (a b : string) : b <> "" -> ultimo (a ++ b) = ultimo b.
Proof.
  intros Hb. induction a as [|x a IH]; simpl; [reflexivity|].
  rewrite IH. destruct (a ++ b) eqn:E; [|reflexivity].
  destruct a; simpl in E; [contradiction | discriminate].
Qed.

(** The lazy group returns the only splitting whose tail the continuation
    accepts, when every accepted tail of [s] has the same length. *)
Lemma grupo_perezoso_Some (k : string -> bool) (n : nat) (s grupo g : string) :
  (forall a b, s = a ++ b -> k b = true -> String.length b = n) ->
  (grupo_perezoso k grupo s = Some g <->
   exists a b, s = a ++ b /\ a <> "" /\ sin_salto a = true /\
               k b = true /\ g = grupo ++ a).
Proof.
  revert grupo. induction s as [|c s IH]; intros grupo Hk; simpl.
  - split; [discriminate|].
    intros (a & b & E & Ha & _). destruct a; [contradiction | discriminate].
  - assert (forall a b, s = a ++ b -> k b = true -> String.length b = n) as Hk'.
    { intros a b -> Hb. apply (Hk (String c a) b); [reflexivity | exact Hb]. }
    destruct (Ascii.eqb_spec c LF) as [->|Hc].
    { split; [discriminate|].
      intros (a & b & E & Ha & Hnl & _). destruct a as [|x a]; [contradiction|].
      simpl in E. injection E as <- _. discriminate. }
    assert ((c =? LF)%char = false) as Hcb by (now apply Ascii.eqb_neq).
    destruct (k s) eqn:Eks.
    + split.
      * intros [= <-]. exists (String c ""), s. simpl.
        unfold sin_salto. simpl. rewrite Hcb.
        repeat split; try reflexivity; try assumption; discriminate.
      * intros (a & b & E & Ha & Hnl & Hb & ->).
        destruct a as [|x a]; [contradiction|].
        simpl in E. injection E as <- ->.
        assert (String.length (a ++ b) = String.length b) as L.
        { rewrite (Hk' "" (a ++ b) eq_refl Eks), (Hk' a b eq_refl Hb).
          reflexivity. }
        rewrite length_append in L.
        assert (a = "") as -> by (apply length_zero; lia). reflexivity.
    + rewrite (IH (grupo ++ String c "") Hk'). split.
      * intros (a & b & -> & Ha & Hnl & Hb & ->).
        exists (String c a), b. unfold sin_salto in *. simpl. rewrite Hcb.
        repeat split; try assumption; try discriminate.
        now rewrite append_assoc.
      * intros (a & b & E & Ha & Hnl & Hb & ->).
        destruct a as [|x a]; [contradiction|].
        simpl in E. injection E as <- ->.
        destruct a as [|y a]; [simpl in Eks; congruence|].
        exists (String y a), b. unfold sin_salto in *. simpl in Hnl.
        rewrite Hcb in Hnl.
        repeat split; try assumption; try discriminate.
        now rewrite append_assoc.
Qed.

(** On a tail without line feed, [cola] accepts the suffix in any case and
    nothing else. *)
Lemma cola_spec (suf b : string) :
  sin_salto b = true -> (cola suf b = true <-> lower b = lower suf).
Proof.
  intros Hnl. unfold cola. split.
  - destruct (literal_nocase suf b) as [r|] eqn:E; [|discriminate].
    apply literal_nocase_Some in E as (u & -> & Hu). unfold fin.
    intros H. apply orb_true_iff in H as [H|H]; apply String.eqb_eq in H; subst r.
    + now rewrite append_nil_r.
    + exfalso. unfold sin_salto in Hnl. rewrite todos_append in Hnl.
      apply andb_true_iff in Hnl as [_ Hnl]. simpl in Hnl. discriminate.
  - intros Hb.
    assert (literal_nocase suf b = Some "") as ->.
    { apply literal_nocase_Some. exists b. now rewrite append_nil_r. }
    reflexivity.
Qed.

(** F3. On a column name without line feed, the pattern of suffix [suf]
    matches exactly the names [pref ++ u] with [pref] non-empty and [u]
    the suffix in any case, and captures [pref]. *)
Lemma pat_match_spec (suf col pref : string) :
  sin_salto col = true ->
  (pat_match suf col = Some pref <-> es_columna_de suf pref col).
Proof.
  intros Hnl. unfold pat_match, es_columna_de.
  assert (forall a b, col = a ++ b -> sin_salto a = true /\ sin_salto b = true)
    as Hsplit.
  { intros a b ->. unfold sin_salto in *. rewrite todos_append in Hnl.
    now apply andb_true_iff in Hnl. }
  rewrite (grupo_perezoso_Some (cola suf) (String.length suf)).
  - split.
    + intros (a & b & E & Ha & _ & Hb & ->). simpl.
      split; [exact Ha|]. exists b. split; [exact E|].
      apply cola_spec; [apply (Hsplit a b E) | exact Hb].
    + intros (Hp & u & E & Hu). exists pref, u.
      destruct (Hsplit pref u E) as [Hp' Hu'].
      repeat split; try assumption; try reflexivity.
      apply cola_spec; assumption.
  - intros a b E Hb. apply cola_spec in Hb; [|apply (Hsplit a b E)].
    rewrite <- (lower_length b), Hb. apply lower_length.
Qed.

(** The last character of a column name decides its suffix. *)
Lemma es_columna_de_ultimo (suf pref col : string) :
  suf <> "" -> es_columna_de suf pref col ->
  ultimo (lower col) = ultimo (lower suf).
Proof.
  intros Hs (_ & u & -> & Hu). rewrite lower_append, Hu.
  apply ultimo_append. destruct suf; [contradiction | discriminate].
Qed.

(** F4. A column name has at most one role and one prefix. *)
Lemma es_columna_de_unica (t t' : tipo) (p p' col : string) :
  es_columna_de (sufijo t) p col -> es_columna_de (sufijo t') p' col ->
  t = t' /\ p = p'.
Proof.
  intros H H'.
  assert (t = t') as <-.
  { apply es_columna_de_ultimo in H; [|destruct t; discriminate].
    apply es_columna_de_ultimo in H'; [|destruct t'; discriminate].
    rewrite H in H'. destruct t, t'; try reflexivity; discriminate. }
  split; [reflexivity|].
  destruct H as (_ & u & -> & Hu), H' as (_ & u' & E & Hu').
  apply append_inj_length in E; [tauto|].
  rewrite <- (lower_length u), Hu, <- (lower_length u'), Hu'. reflexivity.
Qed.

(** The role and the prefix the detector gives to a column name. *)
Definition clasifica (col : string) : option (tipo * string) :=
  primer_patron patrones col.

(** F5. On a column name without line feed, the detector's reading is the
    suffix convention. *)
Lemma clasifica_spec (col : string) (t : tipo) (pref : string) :
  sin_salto col = true ->
  (clasifica col = Some (t, pref) <-> es_columna_de (sufijo t) pref col).
Proof.
  intros Hnl. unfold clasifica, patrones, primer_patron.
  pose proof (fun s p => pat_match_spec s col p Hnl) as M.
  destruct (pat_match "_logFC" col) as [p1|] eqn:E1.
  { apply M in E1. split.
    - intros [= <- <-]. exact E1.
    - intros H. destruct (es_columna_de_unica T_logFC t _ _ _ E1 H) as [<- <-].
      reflexivity. }
  destruct (pat_match "_AveExpr" col) as [p2|] eqn:E2.
  { apply M in E2. split.
    - intros [= <- <-]. exact E2.
    - intros H. destruct (es_columna_de_unica T_AveExpr t _ _ _ E2 H) as [<- <-].
      reflexivity. }
  destruct (pat_match "_adj.P.Val" col) as [p3|] eqn:E3.
  { apply M in E3. split.
    - intros [= <- <-]. exact E3.
    - intros H. destruct (es_columna_de_unica T_adjP t _ _ _ E3 H) as [<- <-].
      reflexivity. }
  destruct (pat_match "_P.Value" col) as [p4|] eqn:E4.
  { apply M in E4. split.
    - intros [= <- <-]. exact E4.
    - intros H. destruct (es_columna_de_unica T_P t _ _ _ E4 H) as [<- <-].
      reflexivity. }
  split; [discriminate|].
  intros H. apply M in H. destruct t; simpl in H; congruence.
Qed.

(** The empty name matches no pattern. *)
Lemma clasifica_no_vacia (col : string) (r : tipo * string) :
  clasifica col = Some r -> col <> "".
Proof. intros H ->. discriminate. Qed.

End PatronFacts.

(* ================================================================== *)
(** * The contrast detector: what the scan builds *)
(* ================================================================== *)

Section DetectorFacts.

Import Texto Nombres.
Local Open Scope string_scope.

(** The prefixes seen so far, in the order of their first column. *)
Definition anotar_clave (ks : list string) (col : string) : list string :=
  match clasifica col with
  | Some (_, p) => if existsb (fun x => x =? p) ks then ks else (ks ++ [p])%list
  | None => ks
  end.

Definition claves (columns : list string) : list string :=
  fold_left anotar_clave columns [].

(** The last column of role [t] and prefix [p], if any. *)
Definition anotar_ultima (t : tipo) (p : string) (o : option string)
  (col : string) : option string :=
  match clasifica col with
  | Some (t', p') => if tipo_eqb t' t && (p =? p') then Some col else o
  | None => o
  end.

Definition ultima (t : tipo) (p : string) (columns : list string) : option string :=
  fold_left (anotar_ultima t p) columns None.

Definition meta_de (columns : list string) (p : string) : Meta :=
  mkMeta (ultima T_logFC p columns) (ultima T_AveExpr p columns)
         (ultima T_adjP p columns) (ultima T_P p columns).

Lemma claves_snoc (columns : list string) (c : string) :
  claves (columns ++ [c]) = anotar_clave (claves columns) c.
Proof. unfold claves. now rewrite fold_left_app. Qed.

Lemma ultima_snoc (t : tipo) (p : string) (columns : list string) (c : string) :
  ultima t p (columns ++ [c]) = anotar_ultima t p (ultima t p columns) c.
Proof. unfold ultima. now rewrite fold_left_app. Qed.

Lemma existsb_eqb_r (p : string) (ks : list string) :
  existsb (fun x => x =? p) ks = true <-> In p ks.
Proof.
  rewrite existsb_exists. split.
  - intros (x & Hin & E). apply String.eqb_eq in E. now subst.
  - intros Hin. exists p. split; [exact Hin | apply String.eqb_refl].
Qed.

Lemma tipo_eqb_eq (a b : tipo) : tipo_eqb a b = true <-> a = b.
Proof. destruct a, b; simpl; split; congruence. Qed.

(** A prefix is a key exactly when some column carries it. *)
Lemma claves_In (columns : list string) (p : string) :
  In p (claves columns) <->
  exists c t, In c columns /\ clasifica c = Some (t, p).
Proof.
  induction columns as [|c columns IH] using rev_ind.
  - simpl. split; [intros [] | intros (? & ? & [] & _)].
  - rewrite claves_snoc. unfold anotar_clave.
    destruct (clasifica c) as [[t q]|] eqn:Ec.
    + assert (In p (claves columns) \/ p = q <->
              exists c0 t0, In c0 (columns ++ [c]) /\ clasifica c0 = Some (t0, p))
        as Hiff.
      { rewrite IH. split.
        - intros [(c0 & t0 & Hin & E) | ->].
          + exists c0, t0. split; [apply in_or_app; now left | exact E].
          + exists c, t. split; [apply in_or_app; right; now left | exact Ec].
        - intros (c0 & t0 & Hin & E). apply in_app_or in Hin as [Hin | [<- | []]].
          + left. now exists c0, t0.
          + right. congruence. }
      rewrite <- Hiff.
      destruct (existsb (fun x => x =? q) (claves columns)) eqn:Ex.
      * apply existsb_eqb_r in Ex. split; [tauto|]. intros [H | ->]; assumption.
      * rewrite in_app_iff. simpl. split; [intros [H|[<-|[]]]; tauto|].
        intros [H | ->]; [now left | right; now left].
    + rewrite IH. split.
      * intros (c0 & t0 & Hin & E). exists c0, t0.
        split; [apply in_or_app; now left | exact E].
      * intros (c0 & t0 & Hin & E). apply in_app_or in Hin as [Hin | [<- | []]].
        -- now exists c0, t0.
        -- congruence.
Qed.

Lemma claves_NoDup (columns : list string) : NoDup (claves columns).
Proof.
  induction columns as [|c columns IH] using rev_ind.
  - constructor.
  - rewrite claves_snoc. unfold anotar_clave.
    destruct (clasifica c) as [[t q]|]; [|exact IH].
    destruct (existsb (fun x => x =? q) (claves columns)) eqn:Ex; [exact IH|].
    assert (~ In q (claves columns)) as Hq.
    { intros H. apply existsb_eqb_r in H. congruence. }
    apply NoDup_rev in IH. rewrite <- (rev_involutive (_ ++ _)%list).
    apply NoDup_rev. rewrite rev_app_distr. simpl. constructor.
    + rewrite <- in_rev. exact Hq.
    + exact IH.
Qed.

(** [ultima] finds the last column of the role and prefix. *)
Lemma ultima_Some (t : tipo) (p : string) (columns : list string) (c : string) :
  ultima t p columns = Some c ->
  exists l1 l2, columns = (l1 ++ c :: l2)%list /\ clasifica c = Some (t, p) /\
                forall c', In c' l2 -> clasifica c' <> Some (t, p).
Proof.
  induction columns as [|x columns IH] using rev_ind.
  - discriminate.
  - rewrite ultima_snoc. unfold anotar_ultima.
    destruct (clasifica x) as [[t' p']|] eqn:Ex.
    + destruct (tipo_eqb t' t && (p =? p')) eqn:Eb.
      * apply andb_true_iff in Eb as [Et Ep].
        apply tipo_eqb_eq in Et. apply String.eqb_eq in Ep. subst t' p'.
        intros [= <-]. exists columns, []. repeat split; [exact Ex|].
        intros c' [].
      * intros H. destruct (IH H) as (l1 & l2 & -> & Hc & Hlast).
        exists l1, (l2 ++ [x])%list. rewrite <- app_assoc. simpl.
        repeat split; [exact Hc|].
        intros c' Hin. apply in_app_or in Hin as [Hin | [<- | []]].
        -- now apply Hlast.
        -- rewrite Ex. intros [= -> ->].
           rewrite String.eqb_refl, andb_true_r in Eb.
           destruct t; discriminate.
    + intros H. destruct (IH H) as (l1 & l2 & -> & Hc & Hlast).
      exists l1, (l2 ++ [x])%list. rewrite <- app_assoc. simpl.
      repeat split; [exact Hc|].
      intros c' Hin. apply in_app_or in Hin as [Hin | [<- | []]].
      * now apply Hlast.
      * congruence.
Qed.

Lemma ultima_None (t : tipo) (p : string) (columns : list string) :
  ultima t p columns = None <->
  forall c, In c columns -> clasifica c <> Some (t, p).
Proof.
  induction columns as [|x columns IH] using rev_ind.
  - split; [intros _ c [] | reflexivity].
  - rewrite ultima_snoc. unfold anotar_ultima.
    destruct (clasifica x) as [[t' p']|] eqn:Ex.
    + destruct (tipo_eqb t' t && (p =? p')) eqn:Eb.
      * apply andb_true_iff in Eb as [Et Ep].
        apply tipo_eqb_eq in Et. apply String.eqb_eq in Ep. subst t' p'.
        split; [discriminate|]. intros H. exfalso.
        apply (H x); [apply in_or_app; right; now left | exact Ex].
      * rewrite IH. split.
        -- intros H c Hin. apply in_app_or in Hin as [Hin | [<- | []]].
           ++ now apply H.
           ++ rewrite Ex. intros [= -> ->].
              rewrite String.eqb_refl, andb_true_r in Eb.
              destruct t; discriminate.
        -- intros H c Hin. apply H. apply in_or_app. now left.
    + rewrite IH. split.
      * intros H c Hin. apply in_app_or in Hin as [Hin | [<- | []]].
        -- now apply H.
        -- congruence.
      * intros H c Hin. apply H. apply in_or_app. now left.
Qed.

(** A prefix that is not yet a key has the empty record. *)
Lemma meta_de_nueva (columns : list string) (p : string) :
  ~ In p (claves columns) -> meta_de columns p = meta_vacio.
Proof.
  intros Hp. unfold meta_de, meta_vacio.
  assert (forall t, ultima t p columns = None) as H.
  { intros t. apply ultima_None. intros c Hin E. apply Hp.
    apply claves_In. now exists c, t. }
  now rewrite !H.
Qed.

(** One more column changes the record of its prefix only. *)
Lemma meta_de_snoc (columns : list string) (c q : string) :
  meta_de (columns ++ [c]) q =
  match clasifica c with
  | Some (t, p) => if q =? p then asignar t c (meta_de columns q)
                   else meta_de columns q
  | None => meta_de columns q
  end.
Proof.
  unfold meta_de. rewrite !ultima_snoc. unfold anotar_ultima.
  destruct (clasifica c) as [[t p]|]; [|reflexivity].
  destruct (q =? p); [|now rewrite !andb_false_r].
  destruct t; reflexivity.
Qed.

Lemma dict_mem_map (p : string) (f : string -> Meta) (ks : list string) :
  dict_mem p (map (fun q => (q, f q)) ks) = existsb (fun x => x =? p) ks.
Proof.
  unfold dict_mem. induction ks as [|k ks IH]; simpl;
    [reflexivity | now rewrite IH].
Qed.

(** The dictionary [info] after the scan: one record per key, holding the
    last column of each role. *)
Lemma info_forma (columns : list string) :
  fold_left paso columns [] =
  map (fun p => (p, meta_de columns p)) (claves columns).
Proof.
  induction columns as [|c columns IH] using rev_ind; [reflexivity|].
  rewrite fold_left_app. simpl. rewrite IH, claves_snoc.
  unfold paso, anotar_clave. fold (clasifica c).
  destruct (clasifica c) as [[t p]|] eqn:Ec.
  - assert (dict_mem p (map (fun p0 => (p0, meta_de columns p0)) (claves columns))
            = existsb (fun x => x =? p) (claves columns)) as ->.
    { apply dict_mem_map. }
    destruct (existsb (fun x => x =? p) (claves columns)) eqn:Ex.
    + unfold dict_update. rewrite map_map. apply map_ext. intros q. simpl.
      rewrite meta_de_snoc, Ec. destruct (q =? p); reflexivity.
    + assert (~ In p (claves columns)) as Hp.
      { intros H. apply existsb_eqb_r in H. congruence. }
      rewrite <- (meta_de_nueva columns p Hp).
      change [(p, meta_de columns p)]
        with (map (fun p0 => (p0, meta_de columns p0)) [p]).
      rewrite <- map_app.
      unfold dict_update. rewrite map_map. apply map_ext. intros q. simpl.
      rewrite meta_de_snoc, Ec. destruct (q =? p); reflexivity.
  - apply map_ext. intros q. now rewrite meta_de_snoc, Ec.
Qed.

(** The keys of the result: the keys of [info] whose record passes the
    test of line 92. *)
Lemma detectar_contrastes_forma (columns : list string) :
  detectar_contrastes columns =
  map (fun p => (p, meta_de columns p))
      (filter (fun p => valido (meta_de columns p)) (claves columns)).
Proof.
  unfold detectar_contrastes. rewrite info_forma.
  induction (claves columns) as [|k ks IH]; simpl; [reflexivity|].
  destruct (valido (meta_de columns k)); simpl; now rewrite IH.
Qed.

End DetectorFacts.

(* ================================================================== *)
(** * The contrast detector: properties *)
(* ================================================================== *)

Section DetectorTeoremas.

Import Texto Nombres.
Local Open Scope string_scope.

(** [p] stands before [q] in the list [l]. *)
Definition antes_en (l : list string) (p q : string) : Prop :=
  exists l1 l2 l3, l = (l1 ++ p :: l2 ++ q :: l3)%list.

Lemma antes_en_snoc (l : list string) (x p q : string) :
  antes_en (l ++ [x]) p q -> antes_en l p q \/ (q = x /\ In p l).
Proof.
  intros (l1 & l2 & l3 & E).
  destruct l3 as [|y l3 _] using rev_ind.
  - right.
    replace (l1 ++ p :: l2 ++ [q])%list with ((l1 ++ p :: l2) ++ [q])%list in E
      by (now rewrite <- app_assoc).
    apply app_inj_tail in E as [-> ->].
    split; [reflexivity | apply in_or_app; right; now left].
  - left.
    replace (l1 ++ p :: l2 ++ q :: l3 ++ [y])%list
      with ((l1 ++ p :: l2 ++ q :: l3) ++ [y])%list in E.
    + apply app_inj_tail in E as [-> _]. now exists l1, l2, l3.
    + rewrite <- app_assoc. simpl. rewrite <- app_assoc. reflexivity.
Qed.

Lemma antes_en_filter (f : string -> bool) (l : list string) (p q : string) :
  antes_en (filter f l) p q -> antes_en l p q.
Proof.
  induction l as [|x l IH]; simpl.
  - intros ([|? ?] & ? & ? & E); discriminate.
  - destruct (f x).
    + intros ([|y l1] & l2 & l3 & E); simpl in E.
      * injection E as <- E.
        assert (In q (filter f l)) as Hq
          by (rewrite E; apply in_or_app; right; now left).
        apply filter_In in Hq as [Hq _].
        apply in_split in Hq as (m1 & m2 & ->).
        now exists [], m1, m2.
      * injection E as <- E.
        destruct (IH (ex_intro _ l1 (ex_intro _ l2 (ex_intro _ l3 E))))
          as (m1 & m2 & m3 & ->).
        now exists (x :: m1), m2, m3.
    + intros H. destruct (IH H) as (m1 & m2 & m3 & ->).
      now exists (x :: m1), m2, m3.
Qed.

(** The keys stand in the order of the first column of each prefix. *)
Lemma claves_orden (columns : list string) (p q : string) :
  antes_en (claves columns) p q ->
  exists l1 c l2,
    columns = (l1 ++ c :: l2)%list /\ (exists t, clasifica c = Some (t, p)) /\
    forall c' t, In c' l1 -> clasifica c' <> Some (t, q).
Proof.
  induction columns as [|x columns IH] using rev_ind.
  - intros ([|? ?] & ? & ? & E); discriminate.
  - rewrite claves_snoc. unfold anotar_clave. intros H.
    assert (antes_en (claves columns) p q ->
            exists l1 c l2,
              (columns ++ [x])%list = (l1 ++ c :: l2)%list /\
              (exists t, clasifica c = Some (t, p)) /\
              forall c' t, In c' l1 -> clasifica c' <> Some (t, q)) as Hold.
    { intros H'. destruct (IH H') as (l1 & c & l2 & -> & Hc & Hno).
      exists l1, c, (l2 ++ [x])%list. rewrite <- app_assoc.
      repeat split; assumption. }
    destruct (clasifica x) as [[t k]|] eqn:Ex; [|now apply Hold].
    destruct (existsb (fun y => y =? k) (claves columns)) eqn:Eb;
      [now apply Hold|].
    apply antes_en_snoc in H as [H | [-> Hp]]; [now apply Hold|].
    assert (~ In k (claves columns)) as Hk.
    { intros Hin. apply existsb_eqb_r in Hin. congruence. }
    apply claves_In in Hp as (c & tc & Hin & Hc).
    apply in_split in Hin as (l1 & l2 & ->).
    exists l1, c, (l2 ++ [x])%list. rewrite <- app_assoc.
    repeat split; [now exists tc|].
    intros c' t' Hin' E. apply Hk. apply claves_In.
    exists c', t'. split; [apply in_or_app; now left | exact E].
Qed.

(** How the column [o] bound to the role [t] of the contrast [pref] relates
    to the column names: it is the last column of that role and prefix,
    and it is absent when there is none. *)
Definition ligado (columns : list string) (pref : string) (t : tipo)
  (o : option string) : Prop :=
  match o with
  | Some c =>
      exists l1 l2, columns = (l1 ++ c :: l2)%list /\
        es_columna_de (sufijo t) pref c /\
        forall c', In c' l2 -> ~ es_columna_de (sufijo t) pref c'
  | None => forall c, In c columns -> ~ es_columna_de (sufijo t) pref c
  end.

Lemma truthy_ultima (t : tipo) (p : string) (columns : list string) :
  truthy (ultima t p columns) = true <->
  exists c, In c columns /\ clasifica c = Some (t, p).
Proof.
  destruct (ultima t p columns) as [c|] eqn:E; simpl.
  - destruct (ultima_Some _ _ _ _ E) as (l1 & l2 & -> & Hc & _).
    split.
    + intros _. exists c. split; [apply in_or_app; right; now left | exact Hc].
    + intros _. apply negb_true_iff. apply String.eqb_neq.
      exact (clasifica_no_vacia _ _ Hc).
  - split; [discriminate|]. intros (c & Hin & Hc). exfalso.
    exact (proj1 (ultima_None t p columns) E c Hin Hc).
Qed.

Section SinSalto.

Variable columns : list string.
Hypothesis columns_sin_salto : Forall (fun c => sin_salto c = true) columns.

Lemma sin_salto_In (c : string) : In c columns -> sin_salto c = true.
Proof. intros Hin. exact (proj1 (Forall_forall _ _) columns_sin_salto c Hin). Qed.

Lemma ligado_ultima (pref : string) (t : tipo) :
  ligado columns pref t (ultima t pref columns).
Proof.
  unfold ligado. destruct (ultima t pref columns) as [c|] eqn:E.
  - destruct (ultima_Some _ _ _ _ E) as (l1 & l2 & Hcols & Hc & Hlast).
    exists l1, l2. split; [exact Hcols|].
    assert (forall c', In c' (c :: l2) -> In c' columns) as Hin.
    { intros c' H. rewrite Hcols. apply in_or_app. now right. }
    split.
    + apply clasifica_spec; [apply sin_salto_In, Hin; now left | exact Hc].
    + intros c' Hc' H. apply (Hlast c' Hc').
      apply clasifica_spec; [apply sin_salto_In, Hin; now right | exact H].
  - intros c Hin H. apply (proj1 (ultima_None t pref columns) E c Hin).
    apply clasifica_spec; [now apply sin_salto_In | exact H].
Qed.

Lemma valido_meta_de (pref : string) :
  valido (meta_de columns pref) = true <->
  (exists c, In c columns /\ es_columna_de "_logFC" pref c) /\
  (exists c, In c columns /\
     (es_columna_de "_adj.P.Val" pref c \/ es_columna_de "_P.Value" pref c)).
Proof.
  unfold valido, meta_de. simpl.
  rewrite andb_true_iff, orb_true_iff, !truthy_ultima.
  assert (forall t, (exists c, In c columns /\ clasifica c = Some (t, pref)) <->
                    (exists c, In c columns /\ es_columna_de (sufijo t) pref c))
    as H.
  { intros t. split; intros (c & Hin & Hc); exists c; (split; [exact Hin|]);
      apply (clasifica_spec c t pref (sin_salto_In c Hin)); exact Hc. }
  rewrite !H. simpl. split.
  - intros [H1 [(c & Hin & Hc) | (c & Hin & Hc)]]; (split; [exact H1|]);
      exists c; tauto.
  - intros [H1 (c & Hin & [Hc | Hc])]; (split; [exact H1|]);
      [left | right]; now exists c.
Qed.

(** C1, as the code has it.  For every ordered sequence of column names
    without line feed, [detectar_contrastes] returns, each once, exactly
    the non-empty prefixes that have a column ending in [_logFC] and a
    column ending in [_adj.P.Val] or in [_P.Value] (suffixes in any case,
    prefix as written); each role of a returned record holds the last
    column of that prefix and role, and none when there is no such column;
    the prefixes come in the order of their first column; in particular a
    non-empty [X] with columns [X_logFC] and [X_adj.P.Val], the suffixes in
    any case, is returned with both fields set. *)
Theorem detectar_contrastes_correcto :
  NoDup (map fst (detectar_contrastes columns)) /\
  (forall pref, In pref (map fst (detectar_contrastes columns)) <->
     (exists c, In c columns /\ es_columna_de "_logFC" pref c) /\
     (exists c, In c columns /\
        (es_columna_de "_adj.P.Val" pref c \/ es_columna_de "_P.Value" pref c))) /\
  (forall pref d, In (pref, d) (detectar_contrastes columns) ->
     forall t, ligado columns pref t (campo t d)) /\
  (forall p q, antes_en (map fst (detectar_contrastes columns)) p q ->
     exists l1 c l2,
       columns = (l1 ++ c :: l2)%list /\
       (exists t, es_columna_de (sufijo t) p c) /\
       forall c' t, In c' l1 -> ~ es_columna_de (sufijo t) q c') /\
  (forall X s1 s2, X <> "" ->
     lower s1 = lower "_logFC" -> lower s2 = lower "_adj.P.Val" ->
     In (X ++ s1) columns -> In (X ++ s2) columns ->
     exists d, In (X, d) (detectar_contrastes columns) /\
               m_logFC d <> None /\ m_adjP d <> None).
Proof.
  rewrite detectar_contrastes_forma.
  assert (forall l, map fst (map (fun p => (p, meta_de columns p)) l) = l) as Hfst.
  { intros l. rewrite map_map. simpl. apply map_id. }
  rewrite Hfst.
  assert (forall pref,
            In pref (filter (fun p => valido (meta_de columns p)) (claves columns))
            <-> valido (meta_de columns pref) = true) as Hmem.
  { intros pref. rewrite filter_In. split; [tauto|]. intros Hv. split; [|exact Hv].
    apply valido_meta_de in Hv as [(c & Hin & Hc) _].
    apply claves_In. exists c, T_logFC. split; [exact Hin|].
    apply clasifica_spec; [now apply sin_salto_In | exact Hc]. }
  assert (forall pref d,
            In (pref, d) (map (fun p => (p, meta_de columns p))
                    (filter (fun p => valido (meta_de columns p)) (claves columns)))
            -> d = meta_de columns pref) as Hrec.
  { intros pref d Hin. apply in_map_iff in Hin as (p & [= <- <-] & _).
    reflexivity. }
  split; [|split; [|split; [|split]]].
  - apply NoDup_filter, claves_NoDup.
  - intros pref. rewrite Hmem. apply valido_meta_de.
  - intros pref d Hin t. rewrite (Hrec pref d Hin).
    destruct t; simpl; apply ligado_ultima.
  - intros p q H. apply antes_en_filter, claves_orden in H
      as (l1 & c & l2 & Hcols & (t & Hc) & Hno).
    assert (forall c', In c' (l1 ++ [c]) -> sin_salto c' = true) as Hnl.
    { intros c' Hin. apply sin_salto_In. rewrite Hcols.
      apply in_app_or in Hin as [Hin | [<- | []]]; apply in_or_app;
        [now left | right; now left]. }
    exists l1, c, l2. split; [exact Hcols|]. split.
    + exists t. apply clasifica_spec; [|exact Hc].
      apply Hnl. apply in_or_app. right. now left.
    + intros c' t' Hin H. apply (Hno c' t' Hin).
      apply clasifica_spec; [|exact H]. apply Hnl. apply in_or_app. now left.
  - intros X s1 s2 HX Hs1 Hs2 Hin1 Hin2.
    assert (es_columna_de "_logFC" X (X ++ s1)) as H1
      by (split; [exact HX | now exists s1]).
    assert (es_columna_de "_adj.P.Val" X (X ++ s2)) as H2
      by (split; [exact HX | now exists s2]).
    exists (meta_de columns X). split; [|split].
    + apply in_map_iff. exists X. split; [reflexivity|].
      apply Hmem, valido_meta_de. split.
      * now exists (X ++ s1).
      * exists (X ++ s2). split; [exact Hin2 | now left].
    + simpl. pose proof (ligado_ultima X T_logFC) as L. intros E.
      rewrite E in L. exact (L _ Hin1 H1).
    + simpl. pose proof (ligado_ultima X T_adjP) as L. intros E.
      rewrite E in L. exact (L _ Hin2 H2).
Qed.

End SinSalto.

(** C1 on the columns of the specification's scenario. *)
Lemma detectar_contrastes_witness :
  exists d, In ("C1", d)
              (detectar_contrastes
                 ["gene"; "C1_logFC"; "C1_adj.P.Val"; "C2_logFC"; "C2_P.Value"]) /\
            m_logFC d <> None /\ m_adjP d <> None.
Proof.
  assert (Forall (fun c => sin_salto c = true)
            ["gene"; "C1_logFC"; "C1_adj.P.Val"; "C2_logFC"; "C2_P.Value"]) as H
    by (repeat constructor).
  destruct (detectar_contrastes_correcto _ H) as (_ & _ & _ & _ & Hx).
  apply (Hx "C1" "_logFC" "_adj.P.Val");
    [discriminate | reflexivity | reflexivity | simpl; tauto | simpl; tauto].
Defined.

(** C1 as the specification words it fails on the empty prefix: the
    columns [_logFC] and [_adj.P.Val] are the suffixes themselves, in the
    case the patterns are written in, and no contrast is returned, because
    the group [(.+?)] of each pattern needs one character at least.  The
    same two columns behind a one-letter prefix are detected.  It fails on
    a prefix with a line feed as well: [.] does not match it, so the
    prefix [a<LF>b] with both columns is not returned. *)
Lemma detectar_contrastes_prefijo_vacio :
  In ("" ++ "_logFC") ["_logFC"; "_adj.P.Val"] /\
  In ("" ++ "_adj.P.Val") ["_logFC"; "_adj.P.Val"] /\
  detectar_contrastes ["_logFC"; "_adj.P.Val"] = [] /\
  detectar_contrastes ["x_logFC"; "x_adj.P.Val"] =
    [("x", mkMeta (Some "x_logFC") None (Some "x_adj.P.Val") None)] /\
  detectar_contrastes
    [ String "a" (String LF "b") ++ "_logFC";
      String "a" (String LF "b") ++ "_adj.P.Val" ] = [].
Proof.
  split; [simpl; tauto|]. split; [simpl; tauto|].
  split; [reflexivity|]. split; reflexivity.
Qed.

End DetectorTeoremas.

(* ================================================================== *)
(** * The table loader: properties *)
(* ================================================================== *)

Section CargaFacts.

Import Texto Pandas Carga.
Local Open Scope string_scope.

(** A semicolon-separated text of two columns and one row, and a
    comma-separated header without rows. *)
Definition texto_punto_y_coma : string :=
  "a;b" ++ String LF ("1;2" ++ String LF "").

Definition texto_solo_cabecera : string := "a,b" ++ String LF "".

Section ConLectores.

Variable pd_read_excel : string -> resultado DataFrame.
Variable pd_read_csv : string -> option string -> option nat -> resultado DataFrame.

(** C4 as the code behaves.  pandas readers return a table whose [attrs]
    is the empty dictionary; hence, for a file that is no workbook, with
    the choice "auto" and a name not ending in [.tsv], the sniffing read
    is made and its outcome is dropped: the table is read with the comma,
    whatever the bytes are. *)
Theorem read_table_auto_usa_coma
  (attrs_vacio : forall b s n df, pd_read_csv b s n = inr df -> attrs df = [])
  (file_bytes filename : string) (nrows_preview : Z) :
  endswith (lower filename) ".xlsx" = false ->
  endswith (lower filename) ".xls" = false ->
  endswith (lower filename) ".tsv" = false ->
  read_table pd_read_excel pd_read_csv file_bytes filename "auto" nrows_preview =
    (_ <- pd_read_csv file_bytes None (Some 1000%nat) ;;
     df <- pd_read_csv file_bytes (Some ",") None ;;
     ret (df, head nrows_preview df)).
Proof.
  intros Hx Hs Ht. unfold read_table. rewrite Hx, Hs, Ht. simpl.
  destruct (pd_read_csv file_bytes None (Some 1000%nat)) as [e|sniff_df] eqn:E;
    simpl; [reflexivity|].
  rewrite (attrs_vacio _ _ _ _ E). reflexivity.
Qed.

(** What the loader makes of the outcome of a reader: the exception as it
    was raised, or the table that was read together with its preview. *)
Definition con_preview (n : Z) (r : resultado DataFrame)
  : resultado (DataFrame * DataFrame) :=
  match r with
  | inl e => inl e
  | inr df => inr (df, head n df)
  end.

(** A file name with the extension of a workbook, in any case. *)
Definition es_libro (filename : string) : bool :=
  endswith (lower filename) ".xlsx" || endswith (lower filename) ".xls".

Lemma bind_con_preview (n : Z) (r : resultado DataFrame) :
  (df <- r ;; let preview := head n df in ret (df, preview)) = con_preview n r.
Proof. destruct r; reflexivity. Qed.

(** The four ways of the loader, each with the reader it calls. *)
Lemma read_table_libro (file_bytes filename sep_choice : string) (n : Z) :
  es_libro filename = true ->
  read_table pd_read_excel pd_read_csv file_bytes filename sep_choice n =
  con_preview n (pd_read_excel file_bytes).
Proof.
  unfold es_libro, read_table. intros ->. apply bind_con_preview.
Qed.

Lemma read_table_separador (file_bytes filename sep_choice : string) (n : Z) :
  es_libro filename = false -> (sep_choice =? "auto") = false ->
  read_table pd_read_excel pd_read_csv file_bytes filename sep_choice n =
  con_preview n
    (pd_read_csv file_bytes
       (Some (if sep_choice =? "\t" then String TAB "" else sep_choice)) None).
Proof.
  unfold es_libro, read_table. intros -> ->. rewrite bind_con_preview.
  destruct (sep_choice =? "\t"); reflexivity.
Qed.

Lemma read_table_auto_tsv (file_bytes filename : string) (n : Z) :
  es_libro filename = false -> endswith (lower filename) ".tsv" = true ->
  read_table pd_read_excel pd_read_csv file_bytes filename "auto" n =
  con_preview n (pd_read_csv file_bytes (Some (String TAB "")) None).
Proof.
  unfold es_libro, read_table. intros -> ->. rewrite bind_con_preview.
  reflexivity.
Qed.

Lemma read_table_auto_otro (file_bytes filename : string) (n : Z) :
  es_libro filename = false -> endswith (lower filename) ".tsv" = false ->
  read_table pd_read_excel pd_read_csv file_bytes filename "auto" n =
  match pd_read_csv file_bytes None (Some 1000%nat) with
  | inl e => inl e
  | inr sniff_df =>
      con_preview n
        (pd_read_csv file_bytes
           (Some (dict_get_default (attrs sniff_df) "delimiter" ",")) None)
  end.
Proof.
  unfold es_libro, read_table. intros -> ->. rewrite bind_con_preview.
  simpl. destruct (pd_read_csv file_bytes None (Some 1000%nat)); reflexivity.
Qed.

Lemma con_preview_inl (n : Z) (r : resultado DataFrame) (e : excepcion) :
  con_preview n r = inl e <-> r = inl e.
Proof. destruct r; simpl; split; congruence. Qed.

Lemma con_preview_inr (n : Z) (r : resultado DataFrame) (df pv : DataFrame) :
  con_preview n r = inr (df, pv) <-> r = inr df /\ pv = head n df.
Proof.
  destruct r as [e|df0]; simpl; split.
  - discriminate.
  - intros [H _]. discriminate.
  - intros [= <- <-]. split; reflexivity.
  - intros [[= ->] ->]. reflexivity.
Qed.

(** C8 as the code behaves.  [read_table] has no error of its own and
    checks no shape: its outcome is the outcome of the one reader it
    calls.  For a workbook name that reader is [pd.read_excel]; otherwise
    it is [pd.read_csv] with the chosen separator (the tab for the choice
    [\t], and for the choice "auto" on a [.tsv] name); for "auto" on
    another name a sniffing read is made first and then the read with the
    separator found in its [attrs].  In each case, when the reader raises
    (malformed file, undecodable bytes, nothing to parse), that very
    exception comes out of [read_table] and no table is returned; when the
    reader returns a table, whatever its numbers of rows and columns,
    [read_table] returns that table with its first rows as preview.
    Hence every failure is a reader's exception and every table returned
    is a table a reader returned. *)
Theorem read_table_sin_error_propio
  (file_bytes filename sep_choice : string) (nrows_preview : Z) :
  (es_libro filename = true ->
   read_table pd_read_excel pd_read_csv file_bytes filename sep_choice
     nrows_preview =
   con_preview nrows_preview (pd_read_excel file_bytes)) /\
  (es_libro filename = false -> (sep_choice =? "auto") = false ->
   read_table pd_read_excel pd_read_csv file_bytes filename sep_choice
     nrows_preview =
   con_preview nrows_preview
     (pd_read_csv file_bytes
        (Some (if sep_choice =? "\t" then String TAB "" else sep_choice))
        None)) /\
  (es_libro filename = false -> sep_choice = "auto" ->
   endswith (lower filename) ".tsv" = true ->
   read_table pd_read_excel pd_read_csv file_bytes filename sep_choice
     nrows_preview =
   con_preview nrows_preview
     (pd_read_csv file_bytes (Some (String TAB "")) None)) /\
  (es_libro filename = false -> sep_choice = "auto" ->
   endswith (lower filename) ".tsv" = false ->
   read_table pd_read_excel pd_read_csv file_bytes filename sep_choice
     nrows_preview =
   match pd_read_csv file_bytes None (Some 1000%nat) with
   | inl e => inl e
   | inr sniff_df =>
       con_preview nrows_preview
         (pd_read_csv file_bytes
            (Some (dict_get_default (attrs sniff_df) "delimiter" ",")) None)
   end) /\
  (forall e,
     read_table pd_read_excel pd_read_csv file_bytes filename sep_choice
       nrows_preview = inl e ->
     pd_read_excel file_bytes = inl e \/
     exists sep n, pd_read_csv file_bytes sep n = inl e) /\
  (forall df preview,
     read_table pd_read_excel pd_read_csv file_bytes filename sep_choice
       nrows_preview = inr (df, preview) ->
     preview = head nrows_preview df /\
     (pd_read_excel file_bytes = inr df \/
      exists sep, pd_read_csv file_bytes (Some sep) None = inr df)).
Proof.
  split; [apply read_table_libro|].
  split; [apply read_table_separador|].
  split; [intros Hl -> Ht; now apply read_table_auto_tsv|].
  split; [intros Hl -> Ht; now apply read_table_auto_otro|].
  destruct (es_libro filename) eqn:Hl.
  { rewrite (read_table_libro _ _ _ _ Hl). split.
    - intros e H. apply con_preview_inl in H. now left.
    - intros df pv H. apply con_preview_inr in H as [H ->].
      split; [reflexivity | now left]. }
  destruct (sep_choice =? "auto") eqn:Ha.
  2:{ rewrite (read_table_separador _ _ _ _ Hl Ha). split.
      - intros e H. apply con_preview_inl in H. right. eauto.
      - intros df pv H. apply con_preview_inr in H as [H ->].
        split; [reflexivity | right; eauto]. }
  apply String.eqb_eq in Ha. subst sep_choice.
  destruct (endswith (lower filename) ".tsv") eqn:Ht.
  { rewrite (read_table_auto_tsv _ _ _ Hl Ht). split.
    - intros e H. apply con_preview_inl in H. right. eauto.
    - intros df pv H. apply con_preview_inr in H as [H ->].
      split; [reflexivity | right; eauto]. }
  rewrite (read_table_auto_otro _ _ _ Hl Ht).
  destruct (pd_read_csv file_bytes None (Some 1000%nat)) as [e0|sniff_df] eqn:E.
  - split.
    + intros e [= <-]. right. eauto.
    + discriminate.
  - split.
    + intros e H. apply con_preview_inl in H. right. eauto.
    + intros df pv H. apply con_preview_inr in H as [H ->].
      split; [reflexivity | right; eauto].
Qed.

End ConLectores.

(** The reader of plain text attaches no attribute. *)
Lemma lector_csv_attrs (b : string) (s : option string) (n : option nat)
  (df : DataFrame) :
  lector_csv b s n = inr df -> attrs df = [].
Proof.
  unfold lector_csv. destruct (lineas b) as [|cabecera resto]; [discriminate|].
  intros [= <-]. reflexivity.
Qed.

(** C4 on a semicolon-separated [.csv]: sniffing would split the header
    into [a] and [b], and the table that is loaded has the single column
    [a;b]. *)
Lemma read_table_auto_witness :
  (exists sniff_df,
     lector_csv texto_punto_y_coma None (Some 1000%nat) = inr sniff_df /\
     columns sniff_df = ["a"; "b"]) /\
  exists df preview,
    read_table lector_excel lector_csv texto_punto_y_coma "datos.csv" "auto" 10
      = inr (df, preview) /\
    columns df = ["a;b"].
Proof.
  split.
  - eexists. split; reflexivity.
  - rewrite (read_table_auto_usa_coma lector_excel lector_csv lector_csv_attrs
               texto_punto_y_coma "datos.csv" 10 eq_refl eq_refl eq_refl).
    eexists. eexists. split; reflexivity.
Defined.

(** C8 on the semicolon-separated text read with its separator, and on
    an empty text, where the reader's exception comes out as it is. *)
Lemma read_table_sin_error_propio_witness :
  read_table lector_excel lector_csv texto_punto_y_coma "datos.csv" ";" 10 =
    inr (mkDF 1 [("a", [CStr "1"]); ("b", [CStr "2"])] [],
         mkDF 1 [("a", [CStr "1"]); ("b", [CStr "2"])] []) /\
  read_table lector_excel lector_csv "" "datos.csv" ";" 10 =
    inl (ErrorDeLectura "No columns to parse from file").
Proof.
  split.
  - rewrite (proj1 (proj2 (read_table_sin_error_propio
               lector_excel lector_csv texto_punto_y_coma "datos.csv" ";" 10))
               eq_refl eq_refl).
    reflexivity.
  - rewrite (proj1 (proj2 (read_table_sin_error_propio
               lector_excel lector_csv "" "datos.csv" ";" 10))
               eq_refl eq_refl).
    reflexivity.
Defined.

(** C8 as the specification words it fails on a table without rows: a
    header alone is parsed into two columns and no row, and [read_table]
    returns that table and its preview, not an error. *)
Lemma read_table_tabla_sin_filas :
  read_table lector_excel lector_csv texto_solo_cabecera "datos.csv" "," 10 =
    inr (mkDF 0 [("a", []); ("b", [])] [], mkDF 0 [("a", []); ("b", [])] []) /\
  n_filas (mkDF 0 [("a", []); ("b", [])] []) = 0%nat.
Proof. split; reflexivity. Qed.

End CargaFacts.

(* ================================================================== *)
(** * Tables whose labels are distinct *)
(* ================================================================== *)

Section TablaFacts.

Import Texto Pandas.
Local Open Scope string_scope.

(** The column of label [key], when the labels are distinct. *)
Fixpoint buscar (key : string) (cs : list (string * Serie)) : option Serie :=
  match cs with
  | [] => None
  | c :: cs' => if fst c =? key then Some (snd c) else buscar key cs'
  end.

Lemma buscar_In (key : string) (cs : list (string * Serie)) (s : Serie) :
  buscar key cs = Some s -> In key (map fst cs).
Proof.
  induction cs as [|c cs IH]; simpl; [discriminate|].
  destruct (String.eqb_spec (fst c) key) as [E|E]; [now left|].
  intros H. right. now apply IH.
Qed.

Lemma buscar_None (key : string) (cs : list (string * Serie)) :
  ~ In key (map fst cs) -> buscar key cs = None.
Proof.
  induction cs as [|c cs IH]; simpl; [reflexivity|].
  intros H. destruct (String.eqb_spec (fst c) key) as [E|E]; [tauto|].
  apply IH. tauto.
Qed.

Lemma filter_ninguna (key : string) (cs : list (string * Serie)) :
  ~ In key (map fst cs) -> filter (fun c => fst c =? key) cs = [].
Proof.
  induction cs as [|c cs IH]; simpl; [reflexivity|].
  intros H. destruct (String.eqb_spec (fst c) key) as [E|E]; [tauto|].
  apply IH. tauto.
Qed.

Lemma filter_una (key : string) (cs : list (string * Serie)) (s : Serie) :
  NoDup (map fst cs) -> buscar key cs = Some s ->
  filter (fun c => fst c =? key) cs = [(key, s)].
Proof.
  induction cs as [|c cs IH]; simpl; [discriminate|].
  intros Hnd. inversion Hnd as [|x l Hx Hnd']; subst.
  destruct (String.eqb_spec (fst c) key) as [E|E].
  - intros [= <-]. rewrite filter_ninguna by (now rewrite <- E).
    destruct c; simpl in *; now subst.
  - now apply IH.
Qed.

Lemma getitem_una (key : string) (df : DataFrame) (s : Serie) :
  NoDup (columns df) -> buscar key (cols df) = Some s ->
  getitem key df = inr (UnaSerie s).
Proof.
  intros Hnd Hb. unfold getitem. now rewrite (filter_una _ _ _ Hnd Hb).
Qed.

Lemma columnas_de_una (keys : list string) (ss : list Serie) (df : DataFrame) :
  NoDup (columns df) ->
  Forall2 (fun k s => buscar k (cols df) = Some s) keys ss ->
  columnas_de keys df = inr (combine keys ss).
Proof.
  intros Hnd H. induction H as [|k s keys ss Hb _ IH]; simpl; [reflexivity|].
  rewrite (filter_una _ _ _ Hnd Hb), IH. reflexivity.
Qed.

Lemma existsb_label (key : string) (cs : list (string * Serie)) :
  existsb (fun c => fst c =? key) cs = true <-> In key (map fst cs).
Proof.
  rewrite existsb_exists, in_map_iff. split.
  - intros (c & Hin & E). apply String.eqb_eq in E. now exists c.
  - intros (c & E & Hin). exists c. split; [exact Hin|].
    now apply String.eqb_eq.
Qed.

Lemma buscar_app (k : string) (cs cs' : list (string * Serie)) :
  buscar k (cs ++ cs') =
  match buscar k cs with
  | Some x => Some x
  | None => buscar k cs'
  end.
Proof.
  induction cs as [|c cs IH]; simpl; [reflexivity|].
  destruct (fst c =? k); [reflexivity | exact IH].
Qed.

Lemma buscar_reemplazo_mismo (key : string) (s : Serie)
  (cs : list (string * Serie)) :
  In key (map fst cs) ->
  buscar key (map (fun c => if fst c =? key then (key, s) else c) cs) = Some s.
Proof.
  induction cs as [|c cs IH]; simpl; [intros []|].
  destruct (String.eqb_spec (fst c) key) as [E|E]; simpl.
  - now rewrite String.eqb_refl.
  - intros [H|H]; [contradiction|].
    rewrite (proj2 (String.eqb_neq _ _) E). now apply IH.
Qed.

Lemma buscar_reemplazo_otro (key k : string) (s : Serie)
  (cs : list (string * Serie)) :
  k <> key ->
  buscar k (map (fun c => if fst c =? key then (key, s) else c) cs) =
  buscar k cs.
Proof.
  intros Hk. induction cs as [|c cs IH]; simpl; [reflexivity|].
  destruct (String.eqb_spec (fst c) key) as [E|E]; simpl.
  - rewrite E. rewrite (proj2 (String.eqb_neq key k)) by congruence. exact IH.
  - destruct (fst c =? k); [reflexivity | exact IH].
Qed.

(** [setitem] changes the column of its label and no other. *)
Lemma setitem_buscar (key k : string) (s : Serie) (df : DataFrame) :
  buscar k (cols (setitem key s df)) =
  if k =? key then Some s else buscar k (cols df).
Proof.
  unfold setitem.
  destruct (existsb (fun c => fst c =? key) (cols df)) eqn:Ex; simpl.
  - apply existsb_label in Ex.
    destruct (String.eqb_spec k key) as [->|E].
    + now apply buscar_reemplazo_mismo.
    + now apply buscar_reemplazo_otro.
  - assert (~ In key (map fst (cols df))) as Hout.
    { intros H. apply existsb_label in H. congruence. }
    rewrite buscar_app. simpl. rewrite (String.eqb_sym key k).
    destruct (String.eqb_spec k key) as [->|E].
    + now rewrite (buscar_None _ _ Hout).
    + destruct (buscar k (cols df)); reflexivity.
Qed.

Lemma setitem_columns (key : string) (s : Serie) (df : DataFrame) :
  columns (setitem key s df) =
  if existsb (fun c => fst c =? key) (cols df) then columns df
  else (columns df ++ [key])%list.
Proof.
  unfold setitem, columns.
  destruct (existsb (fun c => fst c =? key) (cols df)); simpl.
  - rewrite map_map. apply map_ext_in. intros c _.
    destruct (String.eqb_spec (fst c) key) as [E|E]; simpl; congruence.
  - rewrite map_app. reflexivity.
Qed.

Lemma setitem_NoDup (key : string) (s : Serie) (df : DataFrame) :
  NoDup (columns df) -> NoDup (columns (setitem key s df)).
Proof.
  intros Hnd. rewrite setitem_columns.
  destruct (existsb (fun c => fst c =? key) (cols df)) eqn:Ex; [exact Hnd|].
  assert (~ In key (columns df)) as Hout.
  { intros H. apply existsb_label in H. congruence. }
  apply NoDup_rev in Hnd. rewrite <- (rev_involutive (_ ++ _)%list).
  apply NoDup_rev. rewrite rev_app_distr. simpl. constructor; [|exact Hnd].
  now rewrite <- in_rev.
Qed.

Lemma setitem_n_filas (key : string) (s : Serie) (df : DataFrame) :
  n_filas (setitem key s df) = n_filas df /\ attrs (setitem key s df) = attrs df.
Proof.
  unfold setitem. destruct (existsb _ _); split; reflexivity.
Qed.

(** The relabelling of [rename]. *)
Definition reetiquetar (d : list (option string * string)) (c : string) : string :=
  match literal_get d c with
  | Some nuevo => nuevo
  | None => c
  end.

Lemma rename_columns (d : list (option string * string)) (df : DataFrame) :
  columns (rename d df) = map (reetiquetar d) (columns df).
Proof. unfold rename, columns. simpl. now rewrite !map_map. Qed.

(** A relabelling that is one-to-one on the labels keeps them distinct and
    keeps every column under its new label. *)
Lemma rename_NoDup (d : list (option string * string)) (df : DataFrame) :
  (forall a b, In a (columns df) -> In b (columns df) ->
               reetiquetar d a = reetiquetar d b -> a = b) ->
  NoDup (columns df) -> NoDup (columns (rename d df)).
Proof.
  intros Hinj Hnd. rewrite rename_columns.
  induction (columns df) as [|a l IH]; simpl; [constructor|].
  inversion Hnd as [|x l' Ha Hnd']; subst. constructor.
  - intros H. apply in_map_iff in H as (b & E & Hb). apply Ha.
    rewrite (Hinj a b); [exact Hb | now left | now right | congruence].
  - apply IH; [|exact Hnd'].
    intros x y Hx Hy. apply Hinj; now right.
Qed.

Lemma rename_buscar (d : list (option string * string)) (df : DataFrame)
  (a : string) :
  (forall x y, In x (columns df) -> In y (columns df) ->
               reetiquetar d x = reetiquetar d y -> x = y) ->
  In a (columns df) ->
  buscar (reetiquetar d a) (cols (rename d df)) = buscar a (cols df).
Proof.
  unfold rename, columns. simpl. intros Hinj Ha.
  induction (cols df) as [|c cs IH]; simpl; [destruct Ha|].
  fold (reetiquetar d (fst c)).
  destruct (String.eqb_spec (fst c) a) as [E|E].
  - subst a. now rewrite String.eqb_refl.
  - assert (reetiquetar d (fst c) <> reetiquetar d a) as Hne.
    { intros H. apply E. apply Hinj; [now left | exact Ha | exact H]. }
    rewrite (proj2 (String.eqb_neq _ _) Hne).
    apply IH.
    + intros x y Hx Hy. apply Hinj; now right.
    + simpl in Ha. destruct Ha as [Ha|Ha]; [contradiction | exact Ha].
Qed.

End TablaFacts.

(* ================================================================== *)
(** * The per-contrast table builder: properties *)
(* ================================================================== *)

Section ConstructorFacts.

Import Texto Pandas Nombres Constructor.
Local Open Scope string_scope.

Notation "x <- m ;; k" := (bind m (fun x => k))
  (at level 61, m at next level, right associativity).

(** A loaded table with a [SYMBOL] column and a [gene] column, and the
    columns of one contrast. *)
Definition tabla_symbol_gene : DataFrame :=
  mkDF 1 [ ("SYMBOL", [CStr "g1"]); ("gene", [CStr "ENSG1"]);
           ("C1_logFC", [CNum 2%float]); ("C1_adj.P.Val", [CNum 0.01%float]) ]
       [].

Variable str_a_float : string -> option float.
Variable np_log10 : float -> float.

(** C5 fails on [tabla_symbol_gene].  The resolver picks [SYMBOL] as gene
    column and the detector registers the contrast [C1]; renaming [SYMBOL]
    to [gene] leaves two columns of that label, and the final selection
    returns both: the built table has six columns, not the five of the
    fixed list. *)
Theorem preparar_deg_columnas_repetidas :
  elegir_columna_gen (columns tabla_symbol_gene) = Some "SYMBOL" /\
  detectar_contrastes (columns tabla_symbol_gene) =
    [("C1", mkMeta (Some "C1_logFC") None (Some "C1_adj.P.Val") None)] /\
  exists deg,
    preparar_deg_por_contraste str_a_float np_log10 tabla_symbol_gene
      "SYMBOL" "C1" (detectar_contrastes (columns tabla_symbol_gene)) = inr deg /\
    columns deg = ["gene"; "gene"; "logFC"; "AveExpr"; "padj"; "neg_log10_padj"].
Proof.
  split; [reflexivity|]. split; [reflexivity|].
  eexists. split; reflexivity.
Qed.

(** ** Away from label clashes the builder does what is asked *)

(** The builder in two stages: the relabelling of the columns, and the
    five statements that follow it. *)
Definition etapa_renombres (df : DataFrame) (gene_col : string) (meta : Meta)
  : DataFrame :=
  let logfc_col := m_logFC meta in
  let ave_col := m_AveExpr meta in
  let padj_col := if truthy (m_adjP meta) then m_adjP meta else m_P meta in
  let work := rename [ (Some gene_col, "gene");
                       (logfc_col, "logFC");
                       (padj_col, "padj") ] df in
  if truthy ave_col
  then rename [ (ave_col, "AveExpr") ] work
  else setitem_escalar "AveExpr" (CNum nan) work.

Definition etapa_final (work : DataFrame) : resultado DataFrame :=
  sel <- getitem "padj" work ;;
  num <- to_numeric str_a_float sel ;;
  let work := setitem "padj" num work in
  sel <- getitem "logFC" work ;;
  num <- to_numeric str_a_float sel ;;
  let work := setitem "logFC" num work in
  sel <- getitem "padj" work ;;
  s <- una_serie sel ;;
  let work := setitem "neg_log10_padj" (map (neg_log10 np_log10) s) work in
  getitem_lista ["gene"; "logFC"; "AveExpr"; "padj"; "neg_log10_padj"] work.

Lemma preparar_etapas (df : DataFrame) (gene_col contraste : string)
  (info : Info) :
  preparar_deg_por_contraste str_a_float np_log10 df gene_col contraste info =
  (meta <- info_get contraste info ;;
   etapa_final (etapa_renombres df gene_col meta)).
Proof. reflexivity. Qed.

(** The last five statements of the builder, on a table with distinct
    labels that holds the four renamed columns. *)
Lemma preparar_final (work : DataFrame) (G L A Pv : Serie) :
  NoDup (columns work) ->
  buscar "gene" (cols work) = Some G ->
  buscar "logFC" (cols work) = Some L ->
  buscar "AveExpr" (cols work) = Some A ->
  buscar "padj" (cols work) = Some Pv ->
  etapa_final work
  = inr (mkDF (n_filas work)
           [ ("gene", G);
             ("logFC", map (a_numero str_a_float) L);
             ("AveExpr", A);
             ("padj", map (a_numero str_a_float) Pv);
             ("neg_log10_padj",
              map (neg_log10 np_log10) (map (a_numero str_a_float) Pv)) ]
           (attrs work)).
Proof.
  intros Hnd Hg Hl Ha Hp. unfold etapa_final.
  rewrite (getitem_una _ _ _ Hnd Hp). simpl.
  set (w1 := setitem "padj" (map (a_numero str_a_float) Pv) work).
  assert (NoDup (columns w1)) as Hnd1 by (now apply setitem_NoDup).
  assert (buscar "logFC" (cols w1) = Some L) as Hl1
    by (unfold w1; now rewrite setitem_buscar).
  rewrite (getitem_una _ _ _ Hnd1 Hl1). simpl.
  set (w2 := setitem "logFC" (map (a_numero str_a_float) L) w1).
  assert (NoDup (columns w2)) as Hnd2 by (now apply setitem_NoDup).
  assert (buscar "padj" (cols w2) = Some (map (a_numero str_a_float) Pv)) as Hp2
    by (unfold w2, w1; now rewrite !setitem_buscar).
  rewrite (getitem_una _ _ _ Hnd2 Hp2). simpl.
  set (w3 := setitem "neg_log10_padj"
               (map (neg_log10 np_log10) (map (a_numero str_a_float) Pv)) w2).
  assert (NoDup (columns w3)) as Hnd3 by (now apply setitem_NoDup).
  unfold getitem_lista.
  rewrite (columnas_de_una
             ["gene"; "logFC"; "AveExpr"; "padj"; "neg_log10_padj"]
             [G; map (a_numero str_a_float) L; A;
              map (a_numero str_a_float) Pv;
              map (neg_log10 np_log10) (map (a_numero str_a_float) Pv)]
             w3 Hnd3).
  - simpl. unfold w3, w2, w1.
    repeat (destruct (setitem_n_filas _ _ _) as [-> ->] ||
            match goal with
            | |- context [n_filas (setitem ?k ?s ?d)] =>
                rewrite (proj1 (setitem_n_filas k s d))
            | |- context [attrs (setitem ?k ?s ?d)] =>
                rewrite (proj2 (setitem_n_filas k s d))
            end).
    reflexivity.
  - unfold w3, w2, w1.
    repeat constructor; rewrite !setitem_buscar; simpl; assumption || reflexivity.
Qed.

(** The first relabelling, written out. *)
Lemma reetiquetar_roles (gene_col lc pc c : string) :
  reetiquetar [ (Some gene_col, "gene"); (Some lc, "logFC"); (Some pc, "padj") ] c =
  if pc =? c then "padj" else if lc =? c then "logFC"
  else if gene_col =? c then "gene" else c.
Proof.
  unfold reetiquetar. simpl.
  destruct (pc =? c), (lc =? c), (gene_col =? c); reflexivity.
Qed.

(** The column of average expression of the built table: the detected
    column, or NaN on every row. *)
Definition serie_ave (df : DataFrame) (meta : Meta) : Serie :=
  match m_AveExpr meta with
  | Some ac =>
      if ac =? "" then repeat (CNum nan) (n_filas df)
      else match buscar ac (cols df) with
           | Some a => a
           | None => []
           end
  | None => repeat (CNum nan) (n_filas df)
  end.

(** On a table with distinct labels, none of which is [logFC], [padj] or
    [AveExpr], and where [gene] is at most the gene column itself, for a
    contrast whose columns are columns of the table other than the gene
    column, the builder returns the five columns of the fixed list, in
    that order: the gene column as it is, the logFC column and the padj
    column made numeric, the average expression (NaN on every row when no
    such column was detected) and the transformed padj.  The padj column is
    the adjP column when the contrast has one, the P column otherwise. *)
Lemma preparar_deg_sin_choques (df : DataFrame) (gene_col contraste : string)
  (info : Info) (meta : Meta) (lc pc : string) (G L Pv : Serie) :
  NoDup (columns df) ->
  info_get contraste info = inr meta ->
  m_logFC meta = Some lc ->
  (if truthy (m_adjP meta) then m_adjP meta else m_P meta) = Some pc ->
  buscar gene_col (cols df) = Some G ->
  buscar lc (cols df) = Some L ->
  buscar pc (cols df) = Some Pv ->
  gene_col <> lc -> gene_col <> pc -> lc <> pc ->
  (forall ac, m_AveExpr meta = Some ac -> ac <> "" ->
     In ac (columns df) /\ ac <> gene_col /\ ac <> lc /\ ac <> pc) ->
  ~ In "logFC" (columns df) -> ~ In "padj" (columns df) ->
  ~ In "AveExpr" (columns df) ->
  (In "gene" (columns df) -> gene_col = "gene") ->
  preparar_deg_por_contraste str_a_float np_log10 df gene_col contraste info =
  inr (mkDF (n_filas df)
         [ ("gene", G);
           ("logFC", map (a_numero str_a_float) L);
           ("AveExpr", serie_ave df meta);
           ("padj", map (a_numero str_a_float) Pv);
           ("neg_log10_padj",
            map (neg_log10 np_log10) (map (a_numero str_a_float) Pv)) ]
         (attrs df)).
Proof.
  intros Hnd Hinfo Hlc Hpc HG HL HP Hgl Hgp Hlp Have HnoL HnoP HnoA Hgene.
  rewrite preparar_etapas, Hinfo. unfold bind, etapa_renombres.
  rewrite Hlc, Hpc.
  set (d1 := [ (Some gene_col, "gene"); (Some lc, "logFC"); (Some pc, "padj") ]).
  assert (In gene_col (columns df)) as Hing by (exact (buscar_In _ _ _ HG)).
  assert (In lc (columns df)) as Hinl by (exact (buscar_In _ _ _ HL)).
  assert (In pc (columns df)) as Hinp by (exact (buscar_In _ _ _ HP)).
  assert (forall c, In c (columns df) ->
            reetiquetar d1 c = "padj" -> c = pc) as Rp.
  { intros c Hc. unfold d1. rewrite reetiquetar_roles.
    destruct (String.eqb_spec pc c), (String.eqb_spec lc c),
      (String.eqb_spec gene_col c); try congruence; try discriminate;
      try (intros ->; contradiction). }
  assert (forall c, In c (columns df) ->
            reetiquetar d1 c = "logFC" -> c = lc) as Rl.
  { intros c Hc. unfold d1. rewrite reetiquetar_roles.
    destruct (String.eqb_spec pc c), (String.eqb_spec lc c),
      (String.eqb_spec gene_col c); try congruence; try discriminate;
      try (intros ->; contradiction). }
  assert (forall c, In c (columns df) ->
            reetiquetar d1 c = "gene" -> c = gene_col) as Rg.
  { intros c Hc. unfold d1. rewrite reetiquetar_roles.
    destruct (String.eqb_spec pc c), (String.eqb_spec lc c),
      (String.eqb_spec gene_col c); try congruence; try discriminate;
      try (intros ->; symmetry; now apply Hgene). }
  assert (forall c, reetiquetar d1 c = c \/ reetiquetar d1 c = "padj" \/
                    reetiquetar d1 c = "logFC" \/ reetiquetar d1 c = "gene") as Rcasos.
  { intros c. unfold d1. rewrite reetiquetar_roles.
    destruct (pc =? c), (lc =? c), (gene_col =? c); tauto. }
  assert (forall a b, In a (columns df) -> In b (columns df) ->
            reetiquetar d1 a = reetiquetar d1 b -> a = b) as Hinj1.
  { intros a b Ha Hb E.
    destruct (Rcasos b) as [Eb | [Eb | [Eb | Eb]]]; rewrite Eb in E.
    - destruct (Rcasos a) as [Ea | [Ea | [Ea | Ea]]]; rewrite Ea in E.
      + exact E.
      + subst b. contradiction.
      + subst b. contradiction.
      + subst b. rewrite (Rg a Ha Ea). now apply Hgene.
    - now rewrite (Rp a Ha E), (Rp b Hb Eb).
    - now rewrite (Rl a Ha E), (Rl b Hb Eb).
    - now rewrite (Rg a Ha E), (Rg b Hb Eb). }
  set (w1 := rename d1 df).
  assert (NoDup (columns w1)) as Hnd1 by (now apply rename_NoDup).
  assert (reetiquetar d1 gene_col = "gene") as Eg.
  { unfold d1. rewrite reetiquetar_roles.
    rewrite (proj2 (String.eqb_neq pc gene_col)) by congruence.
    rewrite (proj2 (String.eqb_neq lc gene_col)) by congruence.
    now rewrite String.eqb_refl. }
  assert (reetiquetar d1 lc = "logFC") as El.
  { unfold d1. rewrite reetiquetar_roles.
    rewrite (proj2 (String.eqb_neq pc lc)) by congruence.
    now rewrite String.eqb_refl. }
  assert (reetiquetar d1 pc = "padj") as Ep.
  { unfold d1. rewrite reetiquetar_roles. now rewrite String.eqb_refl. }
  assert (buscar "gene" (cols w1) = Some G) as Hg1.
  { rewrite <- Eg. unfold w1. now rewrite rename_buscar. }
  assert (buscar "logFC" (cols w1) = Some L) as Hl1.
  { rewrite <- El. unfold w1. now rewrite rename_buscar. }
  assert (buscar "padj" (cols w1) = Some Pv) as Hp1.
  { rewrite <- Ep. unfold w1. now rewrite rename_buscar. }
  assert (~ In "AveExpr" (columns w1)) as HnoA1.
  { unfold w1. rewrite rename_columns. intros H.
    apply in_map_iff in H as (c & E & Hc).
    destruct (Rcasos c) as [Ec | [Ec | [Ec | Ec]]]; rewrite Ec in E;
      try discriminate. subst c. contradiction. }
  assert (n_filas w1 = n_filas df /\ attrs w1 = attrs df) as [Hn1 Hat1]
    by (split; reflexivity).
  unfold serie_ave. fold w1.
  destruct (m_AveExpr meta) as [ac|] eqn:Eave; unfold truthy.
  - destruct (String.eqb_spec ac "") as [Eac|Eac]; cbn [negb].
    + rewrite (preparar_final
                 (setitem_escalar "AveExpr" (CNum nan) w1)
                 G L (repeat (CNum nan) (n_filas w1)) Pv).
      * unfold setitem_escalar.
        rewrite (proj1 (setitem_n_filas _ _ _)), (proj2 (setitem_n_filas _ _ _)).
        now rewrite Hn1, Hat1.
      * now apply setitem_NoDup.
      * unfold setitem_escalar. now rewrite setitem_buscar.
      * unfold setitem_escalar. now rewrite setitem_buscar.
      * unfold setitem_escalar. now rewrite setitem_buscar.
      * unfold setitem_escalar. now rewrite setitem_buscar.
    + destruct (Have ac eq_refl Eac) as (Hina & Hag & Hal & Hap).
      assert (reetiquetar d1 ac = ac) as Ea.
      { unfold d1. rewrite reetiquetar_roles.
        rewrite (proj2 (String.eqb_neq pc ac)) by congruence.
        rewrite (proj2 (String.eqb_neq lc ac)) by congruence.
        now rewrite (proj2 (String.eqb_neq gene_col ac)) by congruence. }
      destruct (buscar ac (cols df)) as [A|] eqn:HA.
      2:{ exfalso. unfold columns in Hina.
          clear -HA Hina. induction (cols df) as [|c cs IH]; simpl in *;
            [contradiction|].
          destruct (String.eqb_spec (fst c) ac); [discriminate|].
          destruct Hina; [contradiction | now apply IH]. }
      assert (buscar ac (cols w1) = Some A) as Ha1.
      { rewrite <- Ea at 1. unfold w1. now rewrite rename_buscar. }
      set (d2 := [ (Some ac, "AveExpr") ]).
      assert (forall c, reetiquetar d2 c = if ac =? c then "AveExpr" else c) as R2.
      { intros c. unfold reetiquetar, d2. simpl. destruct (ac =? c); reflexivity. }
      assert (forall a b, In a (columns w1) -> In b (columns w1) ->
                reetiquetar d2 a = reetiquetar d2 b -> a = b) as Hinj2.
      { intros a b Ha Hb. rewrite !R2.
        destruct (String.eqb_spec ac a), (String.eqb_spec ac b);
          try congruence; intros E; subst; contradiction. }
      assert (forall k, k <> ac -> In k (columns w1) ->
                buscar k (cols (rename d2 w1)) = buscar k (cols w1)) as Hotros.
      { intros k Hk Hin. rewrite <- (rename_buscar d2 w1 k Hinj2 Hin).
        rewrite R2. now rewrite (proj2 (String.eqb_neq ac k)) by congruence. }
      assert (ac <> "gene") as Hag'.
      { intros ->. apply Hag. symmetry. now apply Hgene. }
      assert (ac <> "logFC") as Hal' by (intros ->; contradiction).
      assert (ac <> "padj") as Hap' by (intros ->; contradiction).
      rewrite (preparar_final (rename d2 w1) G L A Pv).
      * reflexivity.
      * now apply rename_NoDup.
      * rewrite Hotros; [exact Hg1 | congruence | exact (buscar_In _ _ _ Hg1)].
      * rewrite Hotros; [exact Hl1 | congruence | exact (buscar_In _ _ _ Hl1)].
      * replace "AveExpr" with (reetiquetar d2 ac)
          by (rewrite R2; now rewrite String.eqb_refl).
        rewrite rename_buscar; [exact Ha1 | exact Hinj2 | exact (buscar_In _ _ _ Ha1)].
      * rewrite Hotros; [exact Hp1 | congruence | exact (buscar_In _ _ _ Hp1)].
  - rewrite (preparar_final
               (setitem_escalar "AveExpr" (CNum nan) w1)
               G L (repeat (CNum nan) (n_filas w1)) Pv).
    + unfold setitem_escalar.
      rewrite (proj1 (setitem_n_filas _ _ _)), (proj2 (setitem_n_filas _ _ _)).
      now rewrite Hn1, Hat1.
    + now apply setitem_NoDup.
    + unfold setitem_escalar. now rewrite setitem_buscar.
    + unfold setitem_escalar. now rewrite setitem_buscar.
    + unfold setitem_escalar. now rewrite setitem_buscar.
    + unfold setitem_escalar. now rewrite setitem_buscar.
Qed.

(** The specification's scenario: one gene and two contrasts, the second
    with a raw p-value only. *)
Definition tabla_escenario : DataFrame :=
  mkDF 1 [ ("gene", [CStr "g1"]);
           ("C1_logFC", [CNum 2%float]); ("C1_adj.P.Val", [CNum 0.01%float]);
           ("C2_logFC", [CNum (-0.5)%float]); ("C2_P.Value", [CNum 0.2%float]) ]
       [].

(** On the scenario, the table built for [C2] takes its padj from the
    [P] column and fills [AveExpr] with NaN. *)
Lemma preparar_deg_escenario :
  preparar_deg_por_contraste str_a_float np_log10 tabla_escenario "gene" "C2"
    (detectar_contrastes (columns tabla_escenario)) =
  inr (mkDF 1 [ ("gene", [CStr "g1"]);
                ("logFC", [CNum (-0.5)%float]);
                ("AveExpr", [CNum nan]);
                ("padj", [CNum 0.2%float]);
                ("neg_log10_padj", [CNum (- np_log10 0.2)%float]) ]
           []).
Proof.
  rewrite (preparar_deg_sin_choques tabla_escenario "gene" "C2"
             (detectar_contrastes (columns tabla_escenario))
             (mkMeta (Some "C2_logFC") None None (Some "C2_P.Value"))
             "C2_logFC" "C2_P.Value"
             [CStr "g1"] [CNum (-0.5)%float] [CNum 0.2%float]);
    try reflexivity; try discriminate.
  - repeat constructor; simpl; intuition discriminate.
  - simpl. intuition discriminate.
  - simpl. intuition discriminate.
  - simpl. intuition discriminate.
Qed.

(** ** The clamp of the transformed padj *)




End ConstructorFacts.

(* ================================================================== *)
(** * Further properties of the classifier, the filter and the clamp *)
(* ================================================================== *)

Section SignoFacts.

Local Open Scope float_scope.

Lemma is_nan_opp (x : float) : is_nan (- x) = is_nan x.
Proof.
  apply eq_true_iff_eq. rewrite !is_nan_spec, opp_spec.
  destruct (Prim2SF x); simpl; split; congruence.
Qed.

Lemma leb_abs_opp (t x : float) : (t <=? abs (- x)) = (t <=? abs x).
Proof.
  rewrite !FloatAxioms.leb_spec, !abs_spec, opp_spec.
  destruct (Prim2SF x); reflexivity.
Qed.

(** Negation moves a number that is not zero across zero. *)
Lemma ltb_zero_opp (x : float) :
  is_nan x = false -> (x =? 0) = false -> (0 <? - x) = negb (0 <? x).
Proof.
  intros Hn Hz.
  assert (Prim2SF x <> S754_nan) as Hx.
  { intros E. apply is_nan_spec in E. congruence. }
  rewrite FloatAxioms.eqb_spec in Hz.
  rewrite !FloatAxioms.ltb_spec, opp_spec.
  change (Prim2SF 0) with (S754_zero false) in *.
  destruct (Prim2SF x) as [[]|[]| |[] ? ?]; try reflexivity;
    try discriminate; exfalso; apply Hx; reflexivity.
Qed.

(** Neither zero nor its negation is above zero. *)
Lemma ltb_zero_cero (x : float) :
  (x =? 0) = true -> (0 <? x) = false /\ (0 <? - x) = false.
Proof.
  rewrite FloatAxioms.eqb_spec, !FloatAxioms.ltb_spec, opp_spec.
  change (Prim2SF 0) with (S754_zero false).
  destruct (Prim2SF x) as [[]|[]| |[] ? ?]; try discriminate;
    split; reflexivity.
Qed.

(** Among numbers, "not below" is "at least". *)
Lemma ltb_false_leb (x y : float) :
  is_nan x = false -> is_nan y = false -> (x <? y) = false -> (y <=? x) = true.
Proof.
  intros Hx Hy.
  assert (Prim2SF x <> S754_nan) as Nx.
  { intros E. apply is_nan_spec in E. congruence. }
  assert (Prim2SF y <> S754_nan) as Ny.
  { intros E. apply is_nan_spec in E. congruence. }
  rewrite FloatAxioms.leb_spec, FloatAxioms.ltb_spec.
  unfold SFleb, SFltb, SFcompare.
  destruct (Prim2SF x) as [[]|[]| |[] mx ex],
           (Prim2SF y) as [[]|[]| |[] my ey];
    try reflexivity; try discriminate; try contradiction;
    rewrite !Pos.compare_cont_spec;
    rewrite (Z.compare_antisym ex ey), (Pos.compare_antisym mx my);
    destruct (ex ?= ey)%Z, (mx ?= my)%positive; simpl;
    try reflexivity; discriminate.
Qed.

End SignoFacts.

Section ClasificadorExtra.

Import Clasificador.
Local Open Scope float_scope.

(** The row with the opposite fold change. *)
Definition negar (row : DegRow) : DegRow := mkDegRow (- logFC row) (padj row).

(** [Up] and [Down] exchanged. *)
Definition voltear (c : categoria) : categoria :=
  match c with
  | Up => Down
  | Down => Up
  | NoSig => NoSig
  | NoEval => NoEval
  end.

(** X14. The classifier is symmetric in the sign of the fold change, except at
    zero: negating a logFC that is not zero exchanges "Up" and "Down" and
    keeps "No sig" and "No eval"; a logFC equal to zero is never "Up", and
    is labelled the same as its negation ("Down" when it passes the
    thresholds, which it does when [thr_logfc] is zero). *)
Theorem cat_simetria_de_signo (thr_logfc thr_padj : float) (row : DegRow) :
  ((logFC row =? 0) = false ->
   cat thr_logfc thr_padj (negar row) = voltear (cat thr_logfc thr_padj row)) /\
  ((logFC row =? 0) = true ->
   cat thr_logfc thr_padj row <> Up /\
   cat thr_logfc thr_padj (negar row) = cat thr_logfc thr_padj row /\
   ((padj row <=? thr_padj) = true -> cat 0 thr_padj row = Down)).
Proof.
  unfold cat, negar. simpl. rewrite is_nan_opp, leb_abs_opp. split.
  - intros Hz. destruct (is_nan (logFC row)) eqn:Hn; simpl; [reflexivity|].
    destruct (is_nan (padj row)); simpl; [reflexivity|].
    rewrite (ltb_zero_opp _ Hn Hz).
    destruct ((thr_logfc <=? abs (logFC row)) && (padj row <=? thr_padj));
      [|reflexivity].
    destruct (0 <? logFC row); reflexivity.
  - intros Hz. destruct (ltb_zero_cero _ Hz) as [-> ->].
    assert (is_nan (logFC row) = false) as Hn.
    { unfold is_nan. destruct (logFC row =? logFC row) eqn:E; [reflexivity|].
      exfalso. rewrite FloatAxioms.eqb_spec in Hz, E.
      change (Prim2SF 0) with (S754_zero false) in Hz.
      destruct (Prim2SF (logFC row)) as [[]|[]| |[] ? ?]; discriminate. }
    rewrite Hn. simpl. split; [|split].
    + destruct (is_nan (padj row)); [discriminate|].
      destruct ((thr_logfc <=? abs (logFC row)) && (padj row <=? thr_padj));
        discriminate.
    + reflexivity.
    + intros Hp. rewrite (leb_not_nan_l _ _ Hp), Hp.
      assert ((0 <=? abs (logFC row)) = true) as ->; [|reflexivity].
      rewrite FloatAxioms.leb_spec, abs_spec.
      rewrite FloatAxioms.eqb_spec in Hz.
      change (Prim2SF 0) with (S754_zero false) in *.
      destruct (Prim2SF (logFC row)) as [[]|[]| |[] ? ?];
        try discriminate; reflexivity.
Qed.

(** The symmetry on a significant row, and the label of a zero fold
    change at the zero threshold. *)
Lemma cat_simetria_de_signo_witness :
  cat 1 0.05 (negar (mkDegRow 2 0.01)) = voltear (cat 1 0.05 (mkDegRow 2 0.01)) /\
  cat 0 0.05 (mkDegRow 0 0.01) = Down.
Proof.
  split.
  - apply (proj1 (cat_simetria_de_signo 1 0.05 (mkDegRow 2 0.01))). reflexivity.
  - apply (proj2 (cat_simetria_de_signo 0 0.05 (mkDegRow 0 0.01)));
      reflexivity.
Defined.

Lemma filter_filter_implica (A : Type) (f g : A -> bool) (l : list A) :
  (forall x, g x = true -> f x = true) ->
  filter g (filter f l) = filter g l.
Proof.
  intros H. induction l as [|x l IH]; simpl; [reflexivity|].
  destruct (f x) eqn:Ef; simpl.
  - destruct (g x); now rewrite IH.
  - destruct (g x) eqn:Eg; [|exact IH]. apply H in Eg. congruence.
Qed.

Lemma filter_length_implica (A : Type) (f g : A -> bool) (l : list A) :
  (forall x, g x = true -> f x = true) ->
  (List.length (filter g l) <= List.length (filter f l))%nat.
Proof.
  intros H. rewrite <- (filter_filter_implica A f g l H). apply filter_length_le.
Qed.

(** X15. Tightening the thresholds of the DEGs view only removes rows: with
    [thr_logfc <= thr_logfc'] and [thr_padj' <= thr_padj], the rows kept at
    the tighter pair are the rows the tighter filter keeps among those
    kept at the looser pair; they are no more numerous, and each of them
    is kept at the looser pair. *)
Theorem deg_filt_anidado (t p t' p' : float) (deg : list DegRow) :
  (t <=? t') = true -> (p' <=? p) = true ->
  deg_filt t' p' (deg_filt t p deg) = deg_filt t' p' deg /\
  (List.length (deg_filt t' p' deg) <= List.length (deg_filt t p deg))%nat /\
  (forall row, In row (deg_filt t' p' deg) -> In row (deg_filt t p deg)).
Proof.
  intros Ht Hp. unfold deg_filt. rewrite !loc_mask_filter.
  assert (forall row, supera t' p' row = true -> supera t p row = true) as H.
  { intros row. apply supera_monotona; assumption. }
  split; [|split].
  - now apply filter_filter_implica.
  - now apply filter_length_implica.
  - intros row Hin. apply filter_In in Hin as [Hin Hs].
    apply filter_In. split; [exact Hin | now apply H].
Qed.

(** Three rows filtered at [(1, 0.05)] and at [(2, 0.01)]. *)
Lemma deg_filt_anidado_witness :
  deg_filt 2 0.01
    (deg_filt 1 0.05 [mkDegRow 3 0.001; mkDegRow 1.5 0.02; mkDegRow 0.2 0.5]) =
  deg_filt 2 0.01 [mkDegRow 3 0.001; mkDegRow 1.5 0.02; mkDegRow 0.2 0.5].
Proof.
  apply (proj1 (deg_filt_anidado 1 0.05 2 0.01
           [mkDegRow 3 0.001; mkDegRow 1.5 0.02; mkDegRow 0.2 0.5]
           eq_refl eq_refl)).
Defined.

End ClasificadorExtra.

Section ClampExtra.

Import Pandas Constructor.
Local Open Scope float_scope.

(** The clamp keeps NaN and nothing else as NaN, and puts every number
    between its bounds. *)
Lemma np_clip_acotado (x lo hi : float) :
  (lo <=? hi) = true ->
  is_nan (np_clip x lo hi) = is_nan x /\
  (is_nan x = false ->
   (lo <=? np_clip x lo hi) = true /\ (np_clip x lo hi <=? hi) = true).
Proof.
  intros Hlh. unfold np_clip.
  pose proof (leb_not_nan_l _ _ Hlh) as Nlo.
  pose proof (leb_not_nan_r _ _ Hlh) as Nhi.
  destruct (is_nan x) eqn:Hn; [split; [exact Hn | discriminate]|].
  destruct (x <? lo) eqn:E1.
  - split; [exact Nlo|]. intros _. split; [|exact Hlh].
    apply ltb_false_leb; try assumption.
    destruct (lo <? lo) eqn:E; [|reflexivity].
    rewrite FloatAxioms.ltb_spec in E. unfold SFltb, SFcompare in E.
    destruct (Prim2SF lo) as [[]|[]| |[] m e]; try discriminate;
      rewrite Z.compare_refl, Pos.compare_cont_refl in E; discriminate.
  - destruct (hi <? x) eqn:E2.
    + split; [exact Nhi|]. intros _. split; [exact Hlh|].
      apply ltb_false_leb; try assumption.
      destruct (hi <? hi) eqn:E; [|reflexivity].
      rewrite FloatAxioms.ltb_spec in E. unfold SFltb, SFcompare in E.
      destruct (Prim2SF hi) as [[]|[]| |[] m e]; try discriminate;
        rewrite Z.compare_refl, Pos.compare_cont_refl in E; discriminate.
    + split; [exact Hn|]. intros _. split.
      * now apply ltb_false_leb.
      * now apply ltb_false_leb.
Qed.

(** X13. The transformed padj of the builder applies [np.log10] to NaN when the
    padj is NaN, and otherwise to a number between [1e-300] and [1]: never
    to zero, to a negative number or to an infinity, whatever the padj. *)
Theorem neg_log10_argumento (np_log10 : float -> float) (x : float) :
  exists y,
    neg_log10 np_log10 (CNum x) = CNum (- np_log10 y) /\
    is_nan y = is_nan x /\
    (is_nan x = true -> y = x) /\
    (is_nan x = false -> (1e-300 <=? y) = true /\ (y <=? 1) = true) /\
    ((1e-300 <=? x) = true -> (x <=? 1) = true -> y = x).
Proof.
  exists (np_clip x 1e-300 1).
  destruct (np_clip_acotado x 1e-300 1 eq_refl) as [Hnan Hcota].
  split; [reflexivity|]. split; [exact Hnan|]. split; [|split].
  - intros Hn. unfold np_clip. now rewrite Hn.
  - exact Hcota.
  - intros Hlo Hhi. unfold np_clip.
    now rewrite (leb_not_nan_r _ _ Hlo), (leb_no_ltb _ _ Hlo),
      (leb_no_ltb _ _ Hhi).
Qed.

End ClampExtra.

(* ================================================================== *)
(** * Further properties of the contrast detector *)
(* ================================================================== *)

Section PatronExtra.

Import Texto Nombres.
Local Open Scope string_scope.

(** Whatever the lazy group returns, it consumed a non-empty run without
    line feed and the continuation accepted the rest. *)
Lemma grupo_perezoso_inv (k : string -> bool) (s grupo g : string) :
  grupo_perezoso k grupo s = Some g ->
  exists a b, s = a ++ b /\ a <> "" /\ sin_salto a = true /\
              k b = true /\ g = grupo ++ a.
Proof.
  revert grupo. induction s as [|c s IH]; intros grupo; simpl; [discriminate|].
  destruct (Ascii.eqb_spec c LF) as [->|Hc]; [discriminate|].
  assert ((c =? LF)%char = false) as Hcb by (now apply Ascii.eqb_neq).
  destruct (k s) eqn:Eks.
  - intros [= <-]. exists (String c ""), s. unfold sin_salto. simpl.
    rewrite Hcb. repeat split; try assumption; discriminate.
  - intros H. apply IH in H as (a & b & -> & _ & Hnl & Hb & ->).
    exists (String c a), b. unfold sin_salto in *. simpl. rewrite Hcb.
    repeat split; try assumption; try discriminate.
    now rewrite append_assoc.
Qed.

(** What a match of the pattern of suffix [suf] says of the name: a
    non-empty prefix, the suffix in any case, and at most a final line
    feed. *)
Lemma pat_match_inv (suf col pref : string) :
  pat_match suf col = Some pref ->
  pref <> "" /\
  exists u t, col = pref ++ u ++ t /\ lower u = lower suf /\
              (t = "" \/ t = String LF "").
Proof.
  unfold pat_match. intros H.
  apply grupo_perezoso_inv in H as (a & b & -> & Ha & _ & Hb & ->).
  simpl. split; [exact Ha|]. unfold cola in Hb.
  destruct (literal_nocase suf b) as [r|] eqn:E; [|discriminate].
  apply literal_nocase_Some in E as (u & -> & Hu). exists u, r.
  repeat split; try assumption. unfold fin in Hb.
  apply orb_true_iff in Hb as [Hb|Hb]; apply String.eqb_eq in Hb; tauto.
Qed.

Lemma ultimo_lower (s : string) :
  ultimo (lower s) = option_map minuscula (ultimo s).
Proof.
  induction s as [|c s IH]; simpl; [reflexivity|].
  destruct s; simpl in *; [reflexivity | exact IH].
Qed.

(** The last letter of the name, before a final line feed if there is
    one, is the last letter of the suffix. *)
Lemma pat_match_ultimo (suf col pref : string) (c : ascii) :
  ultimo (lower suf) = Some c -> c <> LF ->
  pat_match suf col = Some pref ->
  (ultimo (lower col) = Some c \/
   exists col', col = col' ++ String LF "" /\ ultimo (lower col') = Some c).
Proof.
  intros Hc Hlf H. apply pat_match_inv in H as (_ & u & t & -> & Hu & Ht).
  assert (u <> "") as Hne.
  { intros ->. simpl in Hu. rewrite <- Hu in Hc. discriminate. }
  assert (ultimo (lower (pref ++ u)) = Some c) as Hl.
  { rewrite lower_append, ultimo_append, Hu; [exact Hc|].
    destruct u; [contradiction | discriminate]. }
  destruct Ht as [-> | ->].
  - left. now rewrite append_nil_r.
  - right. exists (pref ++ u). split; [now rewrite append_assoc | exact Hl].
Qed.

Lemma ultimo_salto (s : string) : ultimo (lower (s ++ String LF "")) = Some LF.
Proof. rewrite lower_append, ultimo_append; [reflexivity | discriminate]. Qed.

(** A name matches at most one of the four patterns. *)
Lemma pat_match_unico (t t' : tipo) (col p p' : string) :
  pat_match (sufijo t) col = Some p -> pat_match (sufijo t') col = Some p' ->
  t = t'.
Proof.
  intros H H'.
  assert (exists c, ultimo (lower (sufijo t)) = Some c /\ c <> LF) as (c & Hc & Hlf)
    by (destruct t; eexists; split; try reflexivity; discriminate).
  assert (exists c, ultimo (lower (sufijo t')) = Some c /\ c <> LF)
    as (c' & Hc' & Hlf')
    by (destruct t'; eexists; split; try reflexivity; discriminate).
  assert (c = c') as <-.
  { destruct (pat_match_ultimo _ _ _ _ Hc Hlf H) as [E | (s & -> & E)],
             (pat_match_ultimo _ _ _ _ Hc' Hlf' H') as [E' | (s' & Es & E')].
    - congruence.
    - rewrite Es, ultimo_salto in E. congruence.
    - rewrite ultimo_salto in E'. congruence.
    - apply append_inj_length in Es as [Es _]; [subst|reflexivity].
      rewrite E in E'. now injection E'. }
  destruct t, t'; try reflexivity; vm_compute in Hc, Hc';
    rewrite <- Hc in Hc'; discriminate.
Qed.

(** The first pattern that matches is the only one that does. *)
Lemma clasifica_pat_match (col : string) (t : tipo) (p : string) :
  clasifica col = Some (t, p) <-> pat_match (sufijo t) col = Some p.
Proof.
  unfold clasifica, patrones, primer_patron.
  destruct (pat_match "_logFC" col) as [p1|] eqn:E1.
  { split.
    - intros [= <- <-]. exact E1.
    - intros H. pose proof (pat_match_unico T_logFC t col p1 p E1 H) as <-.
      simpl in H. congruence. }
  destruct (pat_match "_AveExpr" col) as [p2|] eqn:E2.
  { split.
    - intros [= <- <-]. exact E2.
    - intros H. pose proof (pat_match_unico T_AveExpr t col p2 p E2 H) as <-.
      simpl in H. congruence. }
  destruct (pat_match "_adj.P.Val" col) as [p3|] eqn:E3.
  { split.
    - intros [= <- <-]. exact E3.
    - intros H. pose proof (pat_match_unico T_adjP t col p3 p E3 H) as <-.
      simpl in H. congruence. }
  destruct (pat_match "_P.Value" col) as [p4|] eqn:E4.
  { split.
    - intros [= <- <-]. exact E4.
    - intros H. pose proof (pat_match_unico T_P t col p4 p E4 H) as <-.
      simpl in H. congruence. }
  split; [discriminate|]. intros H. destruct t; simpl in H; congruence.
Qed.

(** The first match among a list of patterns. *)
Lemma primer_patron_Some (pats : list (tipo * string)) (col : string)
  (t : tipo) (p : string) :
  primer_patron pats col = Some (t, p) ->
  exists suf, In (t, suf) pats /\ pat_match suf col = Some p.
Proof.
  induction pats as [|[t0 suf0] pats IH]; simpl; [discriminate|].
  destruct (pat_match suf0 col) as [p0|] eqn:E.
  - intros [= <- <-]. exists suf0. split; [now left | exact E].
  - intros H. destruct (IH H) as (suf & Hin & Hm). exists suf.
    split; [now right | exact Hm].
Qed.

Lemma primer_patron_None (pats : list (tipo * string)) (col : string) :
  primer_patron pats col = None ->
  forall t suf, In (t, suf) pats -> pat_match suf col = None.
Proof.
  induction pats as [|[t0 suf0] pats IH]; simpl; [intros _ t suf []|].
  destruct (pat_match suf0 col) as [p0|] eqn:E; [discriminate|].
  intros H t suf [[= <- <-] | Hin]; [exact E | now apply (IH H t)].
Qed.

Lemma patrones_sufijo (t : tipo) (suf : string) :
  In (t, suf) patrones <-> suf = sufijo t.
Proof.
  unfold patrones. simpl. split.
  - intros [[= <- <-] | [[= <- <-] | [[= <- <-] | [[= <- <-] | []]]]];
      reflexivity.
  - intros ->. destruct t; simpl; tauto.
Qed.

(** X2. The detector tries the patterns in the order of the dictionary
    [patrones]; that order is immaterial.  A column name matches at most
    one of the four patterns, line feeds included, so trying the patterns
    in any other order gives every name the same role and the same
    prefix. *)
Theorem primer_patron_orden_indiferente (pats : list (tipo * string))
  (col : string) :
  Permutation.Permutation pats patrones ->
  primer_patron pats col = primer_patron patrones col.
Proof.
  intros Hperm.
  assert (forall t suf, In (t, suf) pats <-> suf = sufijo t) as Hin.
  { intros t suf. rewrite <- patrones_sufijo. split; intros H.
    - exact (Permutation.Permutation_in _ Hperm H).
    - exact (Permutation.Permutation_in _ (Permutation.Permutation_sym Hperm) H). }
  fold (clasifica col).
  destruct (primer_patron pats col) as [[t p]|] eqn:E.
  - apply primer_patron_Some in E as (suf & Hs & Hm).
    apply Hin in Hs. subst suf. symmetry. now apply clasifica_pat_match.
  - destruct (clasifica col) as [[t p]|] eqn:E'; [|reflexivity].
    apply clasifica_pat_match in E'.
    rewrite (primer_patron_None _ _ E t (sufijo t)) in E'; [discriminate|].
    now apply Hin.
Qed.

(** The raw p-value pattern tried before the adjusted one. *)
Lemma primer_patron_orden_indiferente_witness :
  primer_patron
    [ (T_P, "_P.Value"); (T_logFC, "_logFC"); (T_AveExpr, "_AveExpr");
      (T_adjP, "_adj.P.Val") ] "C1_adj.P.Val" =
  primer_patron patrones "C1_adj.P.Val".
Proof.
  apply (primer_patron_orden_indiferente
           [ (T_P, "_P.Value"); (T_logFC, "_logFC"); (T_AveExpr, "_AveExpr");
             (T_adjP, "_adj.P.Val") ] "C1_adj.P.Val").
  unfold patrones.
  apply Permutation_sym.
  apply (Permutation_cons_app
           [ (T_P, "_P.Value") ] [ (T_AveExpr, "_AveExpr"); (T_adjP, "_adj.P.Val") ]
           (T_logFC, "_logFC")).
  apply (Permutation_cons_app
           [ (T_P, "_P.Value") ] [ (T_adjP, "_adj.P.Val") ]
           (T_AveExpr, "_AveExpr")).
  apply (Permutation_cons_app [ (T_P, "_P.Value") ] [] (T_adjP, "_adj.P.Val")).
  apply Permutation_refl.
Defined.

End PatronExtra.

Section DetectorExtra.

Import Texto Nombres.
Local Open Scope string_scope.

Lemma campo_meta_de (t : tipo) (columns : list string) (p : string) :
  campo t (meta_de columns p) = ultima t p columns.
Proof. destruct t; reflexivity. Qed.

(** A returned record is the record of its prefix, and it passed the test
    of line 92. *)
Lemma detectado_meta (columns : list string) (pref : string) (d : Meta) :
  In (pref, d) (detectar_contrastes columns) ->
  d = meta_de columns pref /\ valido d = true.
Proof.
  rewrite detectar_contrastes_forma. intros H.
  apply in_map_iff in H as (p & [= <- <-] & Hin).
  apply filter_In in Hin as [_ Hv]. split; [reflexivity | exact Hv].
Qed.

(** A column bound to a role of a returned record is a column of the
    table that the pattern of the role matches with the record's prefix. *)
Lemma detectado_campo (columns : list string) (pref : string) (d : Meta)
  (t : tipo) (c : string) :
  In (pref, d) (detectar_contrastes columns) -> campo t d = Some c ->
  In c columns /\ clasifica c = Some (t, pref).
Proof.
  intros Hin Hc. destruct (detectado_meta _ _ _ Hin) as [-> _].
  rewrite campo_meta_de in Hc.
  destruct (ultima_Some _ _ _ _ Hc) as (l1 & l2 & -> & Hcl & _).
  split; [apply in_or_app; right; now left | exact Hcl].
Qed.

Lemma truthy_Some (o : option string) :
  truthy o = true -> exists c, o = Some c /\ c <> "".
Proof.
  destruct o as [c|]; simpl; [|discriminate]. intros H. exists c.
  split; [reflexivity|]. apply negb_true_iff in H. now apply String.eqb_neq.
Qed.

(** X1. The invariant of the detector's result, on every sequence of column
    names.  Each returned record has a non-empty prefix, a [logFC] column,
    and a column the builder can use as padj (the [adjP] column when there
    is one, the [P] column otherwise); every column bound to a role is one
    of the given names, is matched by the pattern of that role with the
    record's prefix, and is bound to no other role. *)
Theorem detectar_contrastes_invariante (columns : list string) (pref : string)
  (d : Meta) :
  In (pref, d) (detectar_contrastes columns) ->
  pref <> "" /\
  (exists lc, m_logFC d = Some lc /\ lc <> "") /\
  (exists pc, (if truthy (m_adjP d) then m_adjP d else m_P d) = Some pc /\
              pc <> "") /\
  (forall t c, campo t d = Some c ->
     In c columns /\ pat_match (sufijo t) c = Some pref) /\
  (forall t t' c, campo t d = Some c -> campo t' d = Some c -> t = t').
Proof.
  intros Hin. destruct (detectado_meta _ _ _ Hin) as [_ Hv].
  unfold valido in Hv. apply andb_true_iff in Hv as [Hl Hp].
  destruct (truthy_Some _ Hl) as (lc & El & Nl).
  assert (forall t c, campo t d = Some c ->
            In c columns /\ pat_match (sufijo t) c = Some pref) as Hcampo.
  { intros t c Hc. destruct (detectado_campo _ _ _ _ _ Hin Hc) as [H1 H2].
    split; [exact H1 | now apply clasifica_pat_match]. }
  split; [|split; [|split; [|split]]].
  - destruct (Hcampo T_logFC lc El) as [_ Hm].
    now apply pat_match_inv in Hm.
  - now exists lc.
  - destruct (truthy (m_adjP d)) eqn:Ea.
    + now apply truthy_Some.
    + simpl in Hp. now apply truthy_Some.
  - exact Hcampo.
  - intros t t' c Hc Hc'.
    destruct (detectado_campo _ _ _ _ _ Hin Hc) as [_ H1].
    destruct (detectado_campo _ _ _ _ _ Hin Hc') as [_ H2].
    congruence.
Qed.

(** The invariant on the contrast of two columns. *)
Lemma detectar_contrastes_invariante_witness :
  exists lc, m_logFC (mkMeta (Some "x_logFC") None None (Some "x_P.Value"))
             = Some lc /\ lc <> "".
Proof.
  apply (detectar_contrastes_invariante ["x_logFC"; "x_P.Value"] "x"
           (mkMeta (Some "x_logFC") None None (Some "x_P.Value"))).
  simpl. left. reflexivity.
Defined.

(** A name that one of the patterns matches. *)
Definition encaja (col : string) : bool :=
  match primer_patron patrones col with
  | Some _ => true
  | None => false
  end.

(** X4. Columns that match no pattern (the gene column, annotations, counts)
    leave no trace in the result: detecting on all the columns and
    detecting on those a pattern matches give the same contrasts, records
    and order. *)
Theorem detectar_contrastes_ignora_ajenas (columns : list string) :
  detectar_contrastes (filter encaja columns) = detectar_contrastes columns.
Proof.
  unfold detectar_contrastes. f_equal.
  generalize (@nil (string * Meta)) as info.
  induction columns as [|c columns IH]; intros info; simpl; [reflexivity|].
  unfold encaja. destruct (primer_patron patrones c) as [r|] eqn:E.
  - simpl. apply IH.
  - assert (paso info c = info) as -> by (unfold paso; now rewrite E).
    apply IH.
Qed.

(** A prefix is returned exactly when its record passes the test. *)
Lemma detectado_In (columns : list string) (p : string) :
  In p (map fst (detectar_contrastes columns)) <->
  (exists c, In c columns /\ clasifica c = Some (T_logFC, p)) /\
  ((exists c, In c columns /\ clasifica c = Some (T_adjP, p)) \/
   (exists c, In c columns /\ clasifica c = Some (T_P, p))).
Proof.
  rewrite detectar_contrastes_forma, map_map. simpl. rewrite map_id.
  rewrite filter_In. unfold valido, meta_de. simpl.
  rewrite andb_true_iff, orb_true_iff, !truthy_ultima. split.
  - tauto.
  - intros [H1 H2]. split; [|tauto].
    destruct H1 as (c & Hin & Hc). apply claves_In. now exists c, T_logFC.
Qed.

Lemma detectado_NoDup (columns : list string) :
  NoDup (map fst (detectar_contrastes columns)).
Proof.
  rewrite detectar_contrastes_forma, map_map. simpl. rewrite map_id.
  apply NoDup_filter, claves_NoDup.
Qed.

(** X5. Which contrasts are detected does not depend on the order of the
    columns: reordering the column names gives the same contrast
    identifiers, each once (their order, and which of several columns of
    one role is bound, follow the column order). *)
Theorem detectar_contrastes_permutacion (columns columns' : list string) :
  Permutation columns columns' ->
  Permutation (map fst (detectar_contrastes columns))
              (map fst (detectar_contrastes columns')).
Proof.
  intros Hperm.
  assert (forall l l' : list string, Permutation l l' ->
            forall t p, (exists c, In c l /\ clasifica c = Some (t, p)) ->
                        exists c, In c l' /\ clasifica c = Some (t, p)) as Hmov.
  { intros l l' Hp t p (c & Hin & Hc). exists c.
    split; [exact (Permutation_in _ Hp Hin) | exact Hc]. }
  apply NoDup_Permutation; try apply detectado_NoDup.
  intros p. rewrite !detectado_In.
  pose proof (Hmov _ _ Hperm) as H1.
  pose proof (Hmov _ _ (Permutation_sym Hperm)) as H2.
  split; intros [Ha [Hb | Hb]]; (split; [auto|]); auto.
Qed.

(** Two contrasts with their columns interleaved, and grouped. *)
Lemma detectar_contrastes_permutacion_witness :
  Permutation
    (map fst (detectar_contrastes ["a_logFC"; "b_P.Value"; "a_P.Value"; "b_logFC"]))
    (map fst (detectar_contrastes ["b_P.Value"; "a_logFC"; "a_P.Value"; "b_logFC"])).
Proof.
  apply (detectar_contrastes_permutacion
           ["a_logFC"; "b_P.Value"; "a_P.Value"; "b_logFC"]
           ["b_P.Value"; "a_logFC"; "a_P.Value"; "b_logFC"]).
  apply perm_swap.
Defined.

(** No candidate name of the resolver is matched by a pattern. *)
Lemma candidatos_no_encajan (g : string) :
  In g candidatos -> primer_patron patrones g = None.
Proof.
  unfold candidatos. simpl.
  intros [<- | [<- | [<- | [<- | [<- | [<- | [<- | []]]]]]]]; reflexivity.
Qed.

(** X7. The gene column the resolver picks is a column of the table and one
    of the seven candidate names; no pattern of the detector matches it,
    so it is never bound to a role of a detected contrast. *)
Theorem elegir_columna_gen_no_es_contraste (columns : list string) (g : string) :
  elegir_columna_gen columns = Some g ->
  In g columns /\ In g candidatos /\
  primer_patron patrones g = None /\
  forall pref d t, In (pref, d) (detectar_contrastes columns) ->
                   campo t d <> Some g.
Proof.
  intros H. apply primero_presente_Some in H as (antes & despues & E & Hin & _).
  assert (In g candidatos) as Hc
    by (rewrite E; apply in_or_app; right; now left).
  pose proof (candidatos_no_encajan g Hc) as Hno.
  repeat split; try assumption.
  intros pref d t Hd Hg.
  destruct (detectado_campo _ _ _ _ _ Hd Hg) as [_ Hcl].
  unfold clasifica in Hcl. congruence.
Qed.

(** The resolver on a table with a [Gene] column and one contrast. *)
Lemma elegir_columna_gen_no_es_contraste_witness :
  In "Gene" ["x_logFC"; "Gene"; "x_P.Value"] /\ In "Gene" candidatos /\
  primer_patron patrones "Gene" = None /\
  forall pref d t,
    In (pref, d) (detectar_contrastes ["x_logFC"; "Gene"; "x_P.Value"]) ->
    campo t d <> Some "Gene".
Proof.
  apply (elegir_columna_gen_no_es_contraste ["x_logFC"; "Gene"; "x_P.Value"]).
  reflexivity.
Defined.

(** X8. The resolver looks at which names are columns, not at where they
    stand nor how often: two sequences with the same names give the same
    gene column. *)
Theorem elegir_columna_gen_conjunto (columns columns' : list string) :
  (forall c, In c columns <-> In c columns') ->
  elegir_columna_gen columns = elegir_columna_gen columns'.
Proof.
  intros H. unfold elegir_columna_gen.
  induction candidatos as [|x cands IH]; simpl; [reflexivity|].
  assert (existsb (String.eqb x) columns = existsb (String.eqb x) columns') as ->.
  { apply eq_true_iff_eq. rewrite !existsb_eqb_In. apply H. }
  now rewrite IH.
Qed.

Lemma elegir_columna_gen_conjunto_witness :
  elegir_columna_gen ["gene"; "Gene"; "x"] =
  elegir_columna_gen ["x"; "Gene"; "gene"; "x"].
Proof.
  apply (elegir_columna_gen_conjunto ["gene"; "Gene"; "x"]
           ["x"; "Gene"; "gene"; "x"]).
  intros c. simpl. tauto.
Defined.

(** X9. The display name is always an end of the identifier: what is dropped
    in front, if anything, starts with [PRJNA] and is nine characters long
    at least ([PRJNA], a digit, an underscore, a token character, an
    underscore); nothing is ever changed inside the name or at its end. *)
Theorem pretty_contrast_name_es_final (pref : string) :
  exists seg,
    pref = seg ++ pretty_contrast_name pref /\
    (seg = "" \/
     (9 <= String.length seg)%nat /\ exists r, seg = "PRJNA" ++ r).
Proof.
  unfold pretty_contrast_name.
  destruct (re_prjna pref) as [resto|] eqn:E.
  - apply re_prjna_forma in E as (ds & tok & Hds & _ & Htok & _ & ->).
    exists ("PRJNA" ++ ds ++ "_" ++ tok ++ "_"). split.
    + simpl. rewrite append_assoc. simpl. now rewrite append_assoc.
    + right. split; [|now eexists].
      destruct ds; [contradiction|]. destruct tok; [contradiction|].
      simpl. rewrite length_append. simpl. rewrite length_append. simpl. lia.
  - exists "". split; [reflexivity | now left].
Qed.

End DetectorExtra.

(* ================================================================== *)
(** * Further properties of the table builder *)
(* ================================================================== *)

Section ConstructorExtra.

Import Texto Pandas Nombres Constructor.
Local Open Scope string_scope.

Variable str_a_float : string -> option float.
Variable np_log10 : float -> float.

Lemma info_get_NoDup (info : Info) (k : string) (d : Meta) :
  NoDup (map fst info) -> In (k, d) info -> info_get k info = inr d.
Proof.
  induction info as [|[k0 d0] info IH]; simpl; [intros _ []|].
  intros Hnd. inversion Hnd as [|x l Hx Hnd']; subst.
  intros [[= -> ->] | Hin].
  - now rewrite String.eqb_refl.
  - destruct (String.eqb_spec k0 k) as [->|_]; [|now apply IH].
    exfalso. apply Hx. apply in_map_iff. now exists (k, d).
Qed.

Lemma info_get_ausente (info : Info) (k : string) :
  ~ In k (map fst info) -> info_get k info = inl (KeyError k).
Proof.
  induction info as [|[k0 d0] info IH]; simpl; [reflexivity|].
  intros H. destruct (String.eqb_spec k0 k) as [->|_]; [tauto|].
  apply IH. tauto.
Qed.

Lemma buscar_existe (k : string) (cs : list (string * Serie)) :
  In k (map fst cs) -> exists s, buscar k cs = Some s.
Proof.
  induction cs as [|c cs IH]; simpl; [intros []|].
  destruct (String.eqb_spec (fst c) k) as [E|E].
  - intros _. now exists (snd c).
  - intros [H|H]; [contradiction | now apply IH].
Qed.

(** X10. The detector and the builder fit together.  On a table with distinct
    labels, none of which is [logFC], [padj] or [AveExpr], and with a gene
    column that no pattern matches (such as the resolver's choice) and
    that is the only column that may be called [gene], the builder
    succeeds on every contrast the detector returns for that table: the
    built table has the rows and attributes of the table and exactly the
    five columns gene, logFC, AveExpr, padj, neg_log10_padj, holding the
    gene column, the numeric [logFC] column of the contrast, its [AveExpr]
    column (NaN on every row without one), its numeric [adjP] column, or
    [P] column when it has no [adjP], and the transform of the latter. *)
Theorem preparar_deg_de_detectados (df : DataFrame) (g pref : string) (d : Meta) :
  NoDup (columns df) ->
  ~ In "logFC" (columns df) -> ~ In "padj" (columns df) ->
  ~ In "AveExpr" (columns df) ->
  (In "gene" (columns df) -> g = "gene") ->
  In g (columns df) -> primer_patron patrones g = None ->
  In (pref, d) (detectar_contrastes (columns df)) ->
  exists lc pc G L Pv,
    m_logFC d = Some lc /\
    (if truthy (m_adjP d) then m_adjP d else m_P d) = Some pc /\
    buscar g (cols df) = Some G /\
    buscar lc (cols df) = Some L /\
    buscar pc (cols df) = Some Pv /\
    preparar_deg_por_contraste str_a_float np_log10 df g pref
      (detectar_contrastes (columns df)) =
    inr (mkDF (n_filas df)
           [ ("gene", G);
             ("logFC", map (a_numero str_a_float) L);
             ("AveExpr", serie_ave df d);
             ("padj", map (a_numero str_a_float) Pv);
             ("neg_log10_padj",
              map (neg_log10 np_log10) (map (a_numero str_a_float) Pv)) ]
           (attrs df)).
Proof.
  intros Hnd HnoL HnoP HnoA Hgene Hg Hgno Hin.
  destruct (detectado_meta _ _ _ Hin) as [_ Hv].
  unfold valido in Hv. apply andb_true_iff in Hv as [Hl Hp].
  destruct (truthy_Some _ Hl) as (lc & El & _).
  assert (exists pc t, (if truthy (m_adjP d) then m_adjP d else m_P d) = Some pc /\
                       campo t d = Some pc /\ t <> T_logFC /\ t <> T_AveExpr)
    as (pc & tp & Ep & Cp & Tp1 & Tp2).
  { destruct (truthy (m_adjP d)) eqn:Ea.
    - destruct (truthy_Some _ Ea) as (pc & E & _). exists pc, T_adjP.
      repeat split; try assumption; discriminate.
    - simpl in Hp. destruct (truthy_Some _ Hp) as (pc & E & _).
      exists pc, T_P. repeat split; try assumption; discriminate. }
  destruct (detectado_campo _ _ _ T_logFC lc Hin El) as [Hinl Cl].
  destruct (detectado_campo _ _ _ tp pc Hin Cp) as [Hinp Cpc].
  assert (clasifica g = None) as Cg by exact Hgno.
  destruct (buscar_existe g (cols df) Hg) as (G & HG).
  destruct (buscar_existe lc (cols df) Hinl) as (L & HL).
  destruct (buscar_existe pc (cols df) Hinp) as (Pv & HP).
  exists lc, pc, G, L, Pv. repeat split; try assumption.
  apply (preparar_deg_sin_choques str_a_float np_log10 df g pref
           (detectar_contrastes (columns df)) d lc pc G L Pv);
    try assumption.
  - apply info_get_NoDup; [apply detectado_NoDup | exact Hin].
  - intros ->. congruence.
  - intros ->. congruence.
  - intros ->. rewrite Cl in Cpc. injection Cpc as E. now apply Tp1.
  - intros ac Ea _.
    destruct (detectado_campo _ _ _ T_AveExpr ac Hin Ea) as [Hina Ca].
    repeat split; try assumption.
    + intros ->. congruence.
    + intros ->. congruence.
    + intros ->. rewrite Ca in Cpc. injection Cpc as E. now apply Tp2.
Qed.

(** X11. A contrast that is not a key of the dictionary raises [KeyError] with
    its name, before the table is looked at. *)
Theorem preparar_deg_contraste_ausente (df : DataFrame)
  (gene_col contraste : string) (info : Info) :
  ~ In contraste (map fst info) ->
  preparar_deg_por_contraste str_a_float np_log10 df gene_col contraste info =
  inl (KeyError contraste).
Proof.
  intros H. rewrite preparar_etapas, (info_get_ausente _ _ H). reflexivity.
Qed.

(** The number of columns of a label. *)
Definition cuenta (key : string) (cs : list (string * Serie)) : nat :=
  List.length (filter (fun c => fst c =? key) cs).

Lemma filter_dos (A : Type) (f : A -> bool) (l : list A) (a b : A) :
  In a l -> In b l -> a <> b -> f a = true -> f b = true ->
  (2 <= List.length (filter f l))%nat.
Proof.
  induction l as [|x l IH]; simpl; [intros []|].
  intros Ha Hb Hab Fa Fb.
  assert (forall y, In y l -> f y = true -> (1 <= List.length (filter f l))%nat)
    as Huno.
  { intros y Hy Fy.
    assert (In y (filter f l)) as H by (apply filter_In; now split).
    destruct (filter f l); [destruct H | simpl; lia]. }
  destruct Ha as [-> | Ha], Hb as [-> | Hb].
  - contradiction.
  - rewrite Fa. simpl. pose proof (Huno b Hb Fb). lia.
  - rewrite Fb. simpl. pose proof (Huno a Ha Fa). lia.
  - pose proof (IH Ha Hb Hab Fa Fb). destruct (f x); simpl; lia.
Qed.

Lemma cuenta_rename (d : list (option string * string)) (df : DataFrame)
  (key : string) :
  cuenta key (cols (rename d df)) =
  List.length (filter (fun c => reetiquetar d (fst c) =? key) (cols df)).
Proof.
  unfold cuenta, rename. simpl.
  induction (cols df) as [|c cs IH]; simpl; [reflexivity|].
  fold (reetiquetar d (fst c)).
  destruct (reetiquetar d (fst c) =? key); simpl; now rewrite IH.
Qed.

Lemma cuenta_setitem_otro (key k : string) (s : Serie) (df : DataFrame) :
  k <> key -> (cuenta k (cols df) <= cuenta k (cols (setitem key s df)))%nat.
Proof.
  intros Hk. unfold cuenta, setitem.
  destruct (existsb (fun c => fst c =? key) (cols df)); simpl.
  - induction (cols df) as [|c cs IH]; simpl; [lia|].
    destruct (String.eqb_spec (fst c) key) as [E|E]; simpl.
    + rewrite E. rewrite (proj2 (String.eqb_neq key k)) by congruence.
      exact IH.
    + destruct (fst c =? k); simpl; lia.
  - rewrite filter_app, length_app. lia.
Qed.

Lemma getitem_varias (key : string) (df : DataFrame) :
  (2 <= cuenta key (cols df))%nat ->
  exists cs, getitem key df = inr (VariasColumnas cs).
Proof.
  unfold cuenta, getitem.
  destruct (filter (fun c => fst c =? key) (cols df)) as [|c [|c' cs]]; simpl;
    try lia.
  intros _. now eexists.
Qed.

(** X12. A table that already has a column called [padj], besides the contrast's
    own p-value column, cannot be built: renaming leaves two columns of
    that label, [work["padj"]] is then a DataFrame, and [pd.to_numeric]
    raises [TypeError]. *)
Theorem preparar_deg_choque_padj (df : DataFrame) (gene_col contraste : string)
  (info : Info) (meta : Meta) (pc : string) :
  info_get contraste info = inr meta ->
  (if truthy (m_adjP meta) then m_adjP meta else m_P meta) = Some pc ->
  In pc (columns df) -> In "padj" (columns df) ->
  pc <> "padj" -> gene_col <> "padj" ->
  m_logFC meta <> Some "padj" -> m_AveExpr meta <> Some "padj" ->
  preparar_deg_por_contraste str_a_float np_log10 df gene_col contraste info =
  inl TypeError.
Proof.
  intros Hinfo Hpc Hinp Hinq Npc Ng Nl Na.
  rewrite preparar_etapas, Hinfo. unfold bind at 1.
  assert (2 <= cuenta "padj" (cols (etapa_renombres df gene_col meta)))%nat as H.
  { unfold etapa_renombres. rewrite Hpc.
    set (d1 := [ (Some gene_col, "gene"); (m_logFC meta, "logFC");
                 (Some pc, "padj") ]).
    assert (reetiquetar d1 pc = "padj") as R1.
    { unfold reetiquetar, d1. simpl. now rewrite String.eqb_refl. }
    assert (reetiquetar d1 "padj" = "padj") as R2.
    { unfold reetiquetar, d1. simpl.
      rewrite (proj2 (String.eqb_neq pc "padj")) by exact Npc.
      destruct (m_logFC meta) as [lc|].
      - rewrite (proj2 (String.eqb_neq lc "padj")) by congruence.
        now rewrite (proj2 (String.eqb_neq gene_col "padj")) by exact Ng.
      - now rewrite (proj2 (String.eqb_neq gene_col "padj")) by exact Ng. }
    assert (2 <= cuenta "padj" (cols (rename d1 df)))%nat as H1.
    { rewrite cuenta_rename. unfold columns in Hinp, Hinq.
      apply in_map_iff in Hinp as (e1 & E1 & I1).
      apply in_map_iff in Hinq as (e2 & E2 & I2).
      apply (filter_dos _ _ _ e1 e2); try assumption.
      - intros ->. congruence.
      - rewrite E1, R1. reflexivity.
      - rewrite E2, R2. reflexivity. }
    destruct (truthy (m_AveExpr meta)) eqn:Ta.
    - rewrite cuenta_rename.
      eapply Nat.le_trans; [exact H1|]. unfold cuenta.
      assert (forall c : string * Serie,
                (fst c =? "padj") = true ->
                (reetiquetar [(m_AveExpr meta, "AveExpr")] (fst c) =? "padj") = true)
        as Himp.
      { intros c Hc. apply String.eqb_eq in Hc. rewrite Hc.
        unfold reetiquetar. simpl. destruct (m_AveExpr meta) as [ac|];
          [|reflexivity].
        now rewrite (proj2 (String.eqb_neq ac "padj")) by congruence. }
      apply filter_length_implica. exact Himp.
    - eapply Nat.le_trans; [exact H1|].
      apply cuenta_setitem_otro. discriminate. }
  destruct (getitem_varias _ _ H) as (cs & Hsel).
  unfold etapa_final. rewrite Hsel. reflexivity.
Qed.

End ConstructorExtra.

Section ConstructorExtraWitness.

Import Texto Pandas Nombres Constructor.
Local Open Scope string_scope.

(** The scenario's table, built for the contrast [C2]. *)
Lemma preparar_deg_de_detectados_witness :
  exists lc pc G L Pv,
    Some "C2_logFC" = Some lc /\ Some "C2_P.Value" = Some pc /\
    buscar "gene" (cols tabla_escenario) = Some G /\
    buscar lc (cols tabla_escenario) = Some L /\
    buscar pc (cols tabla_escenario) = Some Pv /\
    preparar_deg_por_contraste (fun _ => None) (fun x => x) tabla_escenario
      "gene" "C2" (detectar_contrastes (columns tabla_escenario)) =
    inr (mkDF 1
           [ ("gene", G);
             ("logFC", map (a_numero (fun _ => None)) L);
             ("AveExpr", [CNum nan]);
             ("padj", map (a_numero (fun _ => None)) Pv);
             ("neg_log10_padj",
              map (neg_log10 (fun x => x)) (map (a_numero (fun _ => None)) Pv)) ]
           []).
Proof.
  apply (preparar_deg_de_detectados (fun _ => None) (fun x => x)
           tabla_escenario "gene" "C2"
           (mkMeta (Some "C2_logFC") None None (Some "C2_P.Value"))).
  - repeat constructor; simpl; intuition discriminate.
  - simpl. intuition discriminate.
  - simpl. intuition discriminate.
  - simpl. intuition discriminate.
  - reflexivity.
  - simpl. tauto.
  - reflexivity.
  - simpl. right. left. reflexivity.
Defined.

(** A contrast the detector did not return. *)
Lemma preparar_deg_contraste_ausente_witness :
  preparar_deg_por_contraste (fun _ => None) (fun x => x) tabla_escenario
    "gene" "C3" (detectar_contrastes (columns tabla_escenario)) =
  inl (KeyError "C3").
Proof.
  apply (preparar_deg_contraste_ausente (fun _ => None) (fun x => x)).
  simpl. intuition discriminate.
Defined.

(** The scenario's table with one more column, called [padj]. *)
Definition tabla_con_padj : DataFrame :=
  mkDF 1 [ ("gene", [CStr "g1"]); ("padj", [CNum 0.5%float]);
           ("C1_logFC", [CNum 2%float]); ("C1_adj.P.Val", [CNum 0.01%float]) ]
       [].

Lemma preparar_deg_choque_padj_witness :
  preparar_deg_por_contraste (fun _ => None) (fun x => x) tabla_con_padj
    "gene" "C1" (detectar_contrastes (columns tabla_con_padj)) =
  inl TypeError.
Proof.
  apply (preparar_deg_choque_padj (fun _ => None) (fun x => x) tabla_con_padj
           "gene" "C1" (detectar_contrastes (columns tabla_con_padj))
           (mkMeta (Some "C1_logFC") None (Some "C1_adj.P.Val") None)
           "C1_adj.P.Val");
    try reflexivity; try discriminate; simpl; tauto.
Defined.

End ConstructorExtraWitness.

(* ================================================================== *)
(** * The download link: properties *)
(* ================================================================== *)

Section EnlaceFacts.

Import Texto Enlace.
Local Open Scope string_scope.

(** Induction on strings three characters at a time. *)
Lemma string_ind3 (P : string -> Prop) :
  P "" -> (forall a, P (String a "")) ->
  (forall a b, P (String a (String b ""))) ->
  (forall a b c r, P r -> P (String a (String b (String c r)))) ->
  forall s, P s.
Proof.
  intros H0 H1 H2 H3.
  assert (forall s, P s /\ (forall a, P (String a s)) /\
                    (forall a b, P (String a (String b s)))) as H.
  { induction s as [|c s (IHa & IHb & IHc)].
    - repeat split; auto.
    - repeat split; auto. }
  intros s. apply H.
Qed.

(** The position of a character in a string. *)
Fixpoint indice (c : ascii) (s : string) (n : nat) : option nat :=
  match s with
  | EmptyString => None
  | String x s' => if (x =? c)%char then Some n else indice c s' (S n)
  end.

(** The six bits of a character of the alphabet, the most significant
    first. *)
Definition bits (c : ascii) : option (bool * bool * bool * bool * bool * bool) :=
  match indice c alfabeto 0 with
  | Some n =>
      Some (Nat.testbit n 5, Nat.testbit n 4, Nat.testbit n 3,
            Nat.testbit n 2, Nat.testbit n 1, Nat.testbit n 0)
  | None => None
  end.

(** The reading of a base64 text: four characters give three bytes; a
    padded last group gives one or two. *)
Fixpoint b64decode (s : string) : option string :=
  match s with
  | EmptyString => Some EmptyString
  | String w (String x (String y (String z resto))) =>
      if (z =? relleno)%char then
        match resto with
        | EmptyString =>
            if (y =? relleno)%char then
              match bits w, bits x with
              | Some (a7, a6, a5, a4, a3, a2), Some (a1, a0, _, _, _, _) =>
                  Some (String (Ascii a0 a1 a2 a3 a4 a5 a6 a7) "")
              | _, _ => None
              end
            else
              match bits w, bits x, bits y with
              | Some (a7, a6, a5, a4, a3, a2), Some (a1, a0, b7, b6, b5, b4),
                Some (b3, b2, b1, b0, _, _) =>
                  Some (String (Ascii a0 a1 a2 a3 a4 a5 a6 a7)
                          (String (Ascii b0 b1 b2 b3 b4 b5 b6 b7) ""))
              | _, _, _ => None
              end
        | String _ _ => None
        end
      else
        match bits w, bits x, bits y, bits z, b64decode resto with
        | Some (a7, a6, a5, a4, a3, a2), Some (a1, a0, b7, b6, b5, b4),
          Some (b3, b2, b1, b0, c7, c6), Some (c5, c4, c3, c2, c1, c0),
          Some r =>
            Some (String (Ascii a0 a1 a2 a3 a4 a5 a6 a7)
                    (String (Ascii b0 b1 b2 b3 b4 b5 b6 b7)
                       (String (Ascii c0 c1 c2 c3 c4 c5 c6 c7) r)))
        | _, _, _, _, _ => None
        end
  | _ => None
  end.

Lemma bits_sexteto (x5 x4 x3 x2 x1 x0 : bool) :
  bits (sexteto x5 x4 x3 x2 x1 x0) = Some (x5, x4, x3, x2, x1, x0).
Proof. destruct x5, x4, x3, x2, x1, x0; reflexivity. Qed.

Lemma sexteto_no_relleno (x5 x4 x3 x2 x1 x0 : bool) :
  (sexteto x5 x4 x3 x2 x1 x0 =? relleno)%char = false.
Proof. destruct x5, x4, x3, x2, x1, x0; reflexivity. Qed.

(** A character of a base64 text: a letter, a digit, [+], [/] or [=]. *)
Definition es_base64 (c : ascii) : bool :=
  match indice c alfabeto 0 with
  | Some _ => true
  | None => (c =? relleno)%char
  end.

Lemma es_base64_sexteto (x5 x4 x3 x2 x1 x0 : bool) :
  es_base64 (sexteto x5 x4 x3 x2 x1 x0) = true.
Proof. destruct x5, x4, x3, x2, x1, x0; reflexivity. Qed.

Lemma b64decode_b64encode (data : string) :
  b64decode (b64encode data) = Some data.
Proof.
  induction data as [| [a0 a1 a2 a3 a4 a5 a6 a7]
                     | [a0 a1 a2 a3 a4 a5 a6 a7] [b0 b1 b2 b3 b4 b5 b6 b7]
                     | [a0 a1 a2 a3 a4 a5 a6 a7] [b0 b1 b2 b3 b4 b5 b6 b7]
                       [c0 c1 c2 c3 c4 c5 c6 c7] r IH] using string_ind3.
  - reflexivity.
  - cbn [b64encode b64decode]. rewrite !Ascii.eqb_refl, !bits_sexteto.
    reflexivity.
  - cbn [b64encode b64decode].
    rewrite Ascii.eqb_refl, sexteto_no_relleno, !bits_sexteto. reflexivity.
  - cbn [b64encode]. cbn [b64decode]. fold b64decode.
    rewrite sexteto_no_relleno, !bits_sexteto, IH. reflexivity.
Qed.

Lemma append_cancel_l (s a b : string) : s ++ a = s ++ b -> a = b.
Proof.
  induction s as [|c s IH]; simpl; [trivial|]. intros [= H]. now apply IH.
Qed.

(** X16. The link keeps the data.  The payload written after [base64,] reads
    back, four characters for three bytes, as the very bytes that were
    given; hence two links with the same file name and label are equal
    only when their data are. *)
Theorem bytes_download_link_conserva_datos (data data' filename label : string) :
  b64decode (b64encode data) = Some data /\
  (bytes_download_link data filename label =
   bytes_download_link data' filename label -> data = data').
Proof.
  split; [apply b64decode_b64encode|].
  unfold bytes_download_link. intros H.
  repeat (apply append_cancel_l in H || injection H as H).
  apply append_inj_length in H as [H _]; [|reflexivity].
  pose proof (b64decode_b64encode data) as E.
  rewrite H, b64decode_b64encode in E. now injection E.
Qed.

Lemma bytes_download_link_conserva_datos_witness :
  b64decode (b64encode "gene,logFC") = Some "gene,logFC" /\
  "g1,2.0" = "g1,2.0".
Proof.
  split.
  - apply (proj1 (bytes_download_link_conserva_datos "gene,logFC" "" "" "")).
  - apply (proj2 (bytes_download_link_conserva_datos "g1,2.0" "g1,2.0"
                    "DEGs_filtrados.csv" "CSV")).
    reflexivity.
Defined.

Lemma es_base64_no_comillas (c : ascii) :
  es_base64 c = true -> (c =? comillas)%char = false.
Proof.
  intros H. destruct (Ascii.eqb_spec c comillas) as [->|]; [|reflexivity].
  discriminate.
Qed.

(** X17. The payload of the link is made of letters, digits, [+], [/] and [=]
    only, four characters for every three bytes begun; in particular it
    holds no double quote, so the data, whatever they are, cannot close
    the [href] attribute they are written in. *)
Theorem b64encode_alfabeto (data : string) :
  todos es_base64 (b64encode data) = true /\
  String.length (b64encode data) = 4 * ((String.length data + 2) / 3) /\
  todos (fun c => negb (c =? comillas)%char) (b64encode data) = true.
Proof.
  assert (todos es_base64 (b64encode data) = true) as Half.
  { induction data as [| [a0 a1 a2 a3 a4 a5 a6 a7]
                       | [a0 a1 a2 a3 a4 a5 a6 a7] [b0 b1 b2 b3 b4 b5 b6 b7]
                       | [a0 a1 a2 a3 a4 a5 a6 a7] [b0 b1 b2 b3 b4 b5 b6 b7]
                         [c0 c1 c2 c3 c4 c5 c6 c7] r IH] using string_ind3.
    - reflexivity.
    - cbn [b64encode todos]. now rewrite !es_base64_sexteto.
    - cbn [b64encode todos]. now rewrite !es_base64_sexteto.
    - cbn [b64encode todos]. now rewrite !es_base64_sexteto, IH. }
  split; [exact Half|]. split.
  - clear Half.
    induction data as [| [a0 a1 a2 a3 a4 a5 a6 a7]
                       | [a0 a1 a2 a3 a4 a5 a6 a7] [b0 b1 b2 b3 b4 b5 b6 b7]
                       | [a0 a1 a2 a3 a4 a5 a6 a7] [b0 b1 b2 b3 b4 b5 b6 b7]
                         [c0 c1 c2 c3 c4 c5 c6 c7] r IH] using string_ind3.
    + reflexivity.
    + reflexivity.
    + reflexivity.
    + cbn [b64encode String.length]. rewrite IH.
      replace (S (S (S (String.length r))) + 2) with (String.length r + 2 + 1 * 3)
        by lia.
      rewrite Nat.div_add by discriminate.
      generalize ((String.length r + 2) / 3). intros n. lia.
  - revert Half. generalize (b64encode data) as s.
    induction s as [|c s IH]; simpl; [reflexivity|].
    intros H. apply andb_true_iff in H as [Hc Hs].
    now rewrite (es_base64_no_comillas c Hc), IH.
Qed.

End EnlaceFacts.

(* ================================================================== *)
(** * The preview of the loader *)
(* ================================================================== *)

Section PreviewFacts.

Import Texto Pandas Carga.
Local Open Scope string_scope.

(** Every column of the table has one cell per row. *)
Definition bien_formada (df : DataFrame) : Prop :=
  Forall (fun c => List.length (snd c) = n_filas df) (cols df).

Variable pd_read_excel : string -> resultado DataFrame.
Variable pd_read_csv : string -> option string -> option nat -> resultado DataFrame.

Lemma read_table_inr (file_bytes filename sep_choice : string) (n : Z)
  (df preview : DataFrame) :
  read_table pd_read_excel pd_read_csv file_bytes filename sep_choice n =
    inr (df, preview) ->
  preview = head n df.
Proof.
  unfold read_table.
  match goal with |- bind ?m _ = _ -> _ => destruct m as [e|df0] end; simpl.
  - discriminate.
  - intros [= <- <-]. reflexivity.
Qed.

Lemma head_todo (k : nat) (cs : list (string * Serie)) (filas : nat) :
  Forall (fun c => List.length (snd c) = filas) cs -> (filas <= k)%nat ->
  map (fun c => (fst c, firstn k (snd c))) cs = cs.
Proof.
  intros H Hk. induction H as [|c cs Hc _ IH]; simpl; [reflexivity|].
  rewrite IH, firstn_all2 by lia. now destruct c.
Qed.

(** X18. The preview returned by the loader, for a preview size [n >= 0]: it
    has the labels and the attributes of the table, [min n rows] rows, and
    each of its columns holds the first [n] cells of the table's column;
    it has one cell per row in every column when the table has, and it
    is the table itself when the table has at most [n] rows. *)
Theorem read_table_preview (file_bytes filename sep_choice : string) (n : Z)
  (df preview : DataFrame) :
  (0 <= n)%Z ->
  read_table pd_read_excel pd_read_csv file_bytes filename sep_choice n =
    inr (df, preview) ->
  columns preview = columns df /\
  attrs preview = attrs df /\
  n_filas preview = Nat.min (Z.to_nat n) (n_filas df) /\
  map snd (cols preview) = map (fun c => firstn (Z.to_nat n) (snd c)) (cols df) /\
  (bien_formada df -> bien_formada preview) /\
  (bien_formada df -> (Z.of_nat (n_filas df) <= n)%Z -> preview = df).
Proof.
  intros Hn H. apply read_table_inr in H. subst preview.
  unfold head, columns, bien_formada.
  assert ((0 <=? n)%Z = true) as -> by (now apply Z.leb_le).
  simpl. rewrite !map_map. simpl.
  repeat split.
  - intros Hwf. apply Forall_forall. intros c Hin.
    apply in_map_iff in Hin as (c0 & <- & Hin0). simpl.
    rewrite length_firstn.
    now rewrite (proj1 (Forall_forall _ _) Hwf c0 Hin0).
  - intros Hwf Hle.
    rewrite (head_todo (Z.to_nat n) (cols df) (n_filas df) Hwf) by lia.
    rewrite Nat.min_r by lia. now destruct df.
Qed.

End PreviewFacts.

Section PreviewWitness.

Import Texto Pandas Carga.
Local Open Scope string_scope.

(** The preview of the semicolon-separated text at size 10. *)
Lemma read_table_preview_witness :
  n_filas (mkDF 1 [("a", [CStr "1"]); ("b", [CStr "2"])] []) =
  Nat.min (Z.to_nat 10) 1.
Proof.
  apply (read_table_preview lector_excel lector_csv texto_punto_y_coma
           "datos.csv" ";" 10
           (mkDF 1 [("a", [CStr "1"]); ("b", [CStr "2"])] [])
           (mkDF 1 [("a", [CStr "1"]); ("b", [CStr "2"])] [])).
  - discriminate.
  - reflexivity.
Defined.

End PreviewWitness.

(* ================================================================== *)
(** * The patterns on every name, line feeds included *)
(* ================================================================== *)

Section PatronExacto.

Import Texto Nombres.
Local Open Scope string_scope.

Lemma ultimo_append_r (a b : string) (c : ascii) :
  ultimo b = Some c -> ultimo (a ++ b) = Some c.
Proof.
  intros H. rewrite ultimo_append; [exact H|]. intros ->. discriminate.
Qed.

Lemma minuscula_LF (x : ascii) : minuscula x = LF -> x = LF.
Proof.
  unfold minuscula. destruct x as [[] [] [] [] [] [] [] []]; vm_compute;
    intros H; try reflexivity; discriminate.
Qed.

(** A tail the continuation accepts ends in a line feed exactly when it is
    the suffix followed by one. *)
Lemma cola_forma (suf b : string) :
  cola suf b = true <->
  exists u tl, b = u ++ tl /\ lower u = lower suf /\
               (tl = "" \/ tl = String LF "").
Proof.
  unfold cola. split.
  - destruct (literal_nocase suf b) as [r|] eqn:E; [|discriminate].
    apply literal_nocase_Some in E as (u & -> & Hu). intros H.
    exists u, r. repeat split; try assumption. unfold fin in H.
    apply orb_true_iff in H as [H|H]; apply String.eqb_eq in H; tauto.
  - intros (u & tl & -> & Hu & Htl).
    assert (literal_nocase suf (u ++ tl) = Some tl) as ->.
    { apply literal_nocase_Some. now exists u. }
    destruct Htl as [-> | ->]; reflexivity.
Qed.

(** The length of an accepted tail of [col]: the length of the suffix, and
    one more when [col] ends in a line feed. *)
Definition largo_cola (suf col : string) : nat :=
  match ultimo col with
  | Some c => if (c =? LF)%char then S (String.length suf) else String.length suf
  | None => String.length suf
  end.

Lemma cola_largo (suf col a b : string) (c : ascii) :
  ultimo (lower suf) = Some c -> c <> LF ->
  col = a ++ b -> cola suf b = true ->
  String.length b = largo_cola suf col.
Proof.
  intros Hc Hlf -> Hb. apply cola_forma in Hb as (u & tl & -> & Hu & Htl).
  assert (String.length u = String.length suf) as Lu
    by (now rewrite <- (lower_length u), Hu, lower_length).
  assert (exists x, ultimo u = Some x /\ x <> LF) as (x & Hx & Nx).
  { rewrite <- Hu, ultimo_lower in Hc.
    destruct (ultimo u) as [x|]; [|discriminate]. exists x.
    split; [reflexivity|]. intros ->. simpl in Hc.
    injection Hc as Hc. apply Hlf. rewrite <- Hc. reflexivity. }
  unfold largo_cola. destruct Htl as [-> | ->].
  - rewrite append_nil_r, (ultimo_append_r a u x Hx).
    now rewrite (proj2 (Ascii.eqb_neq x LF)).
  - rewrite (ultimo_append_r a (u ++ String LF "") LF).
    + rewrite length_append. simpl. lia.
    + apply ultimo_append_r. reflexivity.
Qed.

(** X3. What each pattern matches, on every name.  The pattern of a role
    matches a name and captures [pref] exactly when [pref] is not empty
    and holds no line feed, and the name is [pref], then the suffix of the
    role in any case, then nothing or one final line feed.  So a name
    with a final line feed is still read as a contrast column, and a
    prefix with a line feed inside never is. *)
Theorem pat_match_exacto (t : tipo) (col pref : string) :
  pat_match (sufijo t) col = Some pref <->
  pref <> "" /\ sin_salto pref = true /\
  exists u tl, col = pref ++ u ++ tl /\ lower u = lower (sufijo t) /\
               (tl = "" \/ tl = String LF "").
Proof.
  assert (exists c, ultimo (lower (sufijo t)) = Some c /\ c <> LF)
    as (c & Hc & Hlf)
    by (destruct t; eexists; split; try reflexivity; discriminate).
  unfold pat_match.
  rewrite (grupo_perezoso_Some (cola (sufijo t)) (largo_cola (sufijo t) col)).
  - split.
    + intros (a & b & -> & Ha & Hnl & Hb & ->). simpl.
      apply cola_forma in Hb as (u & tl & -> & Hu & Htl).
      repeat split; try assumption. now exists u, tl.
    + intros (Hp & Hnl & u & tl & -> & Hu & Htl).
      exists pref, (u ++ tl). repeat split; try assumption.
      apply cola_forma. now exists u, tl.
  - intros a b E Hb. exact (cola_largo _ _ _ _ _ Hc Hlf E Hb).
Qed.

End PatronExacto.

Section DetectorCrece.

Import Texto Nombres.
Local Open Scope string_scope.

(** X6. More columns never lose a contrast: every contrast detected on a
    sequence of column names is detected on any sequence that holds those
    names, wherever the new names stand. *)
Theorem detectar_contrastes_crece (columns columns' : list string) :
  (forall c, In c columns -> In c columns') ->
  forall pref, In pref (map fst (detectar_contrastes columns)) ->
               In pref (map fst (detectar_contrastes columns')).
Proof.
  intros Hinc pref. rewrite !detectado_In.
  assert (forall t, (exists c, In c columns /\ clasifica c = Some (t, pref)) ->
                    exists c, In c columns' /\ clasifica c = Some (t, pref)) as H.
  { intros t (c & Hin & Hc). exists c. split; [now apply Hinc | exact Hc]. }
  intros [Ha [Hb | Hb]]; (split; [now apply H|]); [left | right]; now apply H.
Qed.

Lemma detectar_contrastes_crece_witness :
  In "a" (map fst (detectar_contrastes ["gene"; "b_logFC"; "a_P.Value"; "a_logFC"])).
Proof.
  apply (detectar_contrastes_crece ["a_logFC"; "a_P.Value"]
           ["gene"; "b_logFC"; "a_P.Value"; "a_logFC"]).
  - simpl. tauto.
  - simpl. left. reflexivity.
Defined.

End DetectorCrece.

(* ================================================================== *)
(** * The transformed padj of the built table *)
(* ================================================================== *)

Section ColumnasConEtiqueta.

Import Texto Pandas.
Local Open Scope string_scope.









End ColumnasConEtiqueta.

Section NegLog10.

Import Texto Pandas Nombres Constructor.
Local Open Scope string_scope.







End NegLog10.
